(** * telegram-test-api: the in-memory update store of [TelegramServer]

    A shallow embedding of the storage part of the [TelegramServer] class
    (identity counters, the two message logs, clean-up, history, deletion,
    the clean-up daemon, the promises that wait for a message) and of
    [TelegramClient] (its constructor, [makeMessage], and the polling loop
    of [getUpdates] over the answers that the server gives), with the
    properties of them that the specification states and further ones that
    the code shows.

    Conventions of the embedding.
    - A JavaScript value is a [JsValue].  Numbers are the integers the
      program produces (counters, identifiers, millisecond time stamps), as
      [Z]; they are exact as long as they stay below 2^53.  Object
      references are not modelled: an object is its list of own fields.
    - A method that can throw returns a [Res]; a method that mutates [this]
      takes the server and returns the new one.
    - [new Date().getTime()] is an input: the reading is an argument of the
      method that takes it.  So are the answers to the requests of the
      client, each with the time it takes; there a timer fires at the
      instant it is due. *)

From Stdlib Require Import ZArith List String Ascii Bool Lia Sorted.
From Stdlib Require Import DecimalString.
Import ListNotations.
Local Open Scope string_scope.
Local Open Scope list_scope.
Local Open Scope Z_scope.

(** ** JavaScript values *)

#[warnings="-register-all"]
Inductive JsValue : Type :=
| JUndefined
| JNull
| JBool (b : bool)
| JNum (n : Z)
| JStr (s : string)
| JObj (fields : list (string * JsValue)).

Inductive JsError : Type :=
| TypeError
| AssertionError (msg : string).

(** Outcome of a call that may throw. *)
Inductive Res (A : Type) : Type :=
| Ok (a : A)
| Throw (e : JsError).
Arguments Ok {A} a.
Arguments Throw {A} e.

Definition bind {A B} (r : Res A) (k : A -> Res B) : Res B :=
  match r with
  | Ok a => k a
  | Throw e => Throw e
  end.

Notation "x <- r ;; k" := (bind r (fun x => k))
  (at level 61, r at next level, right associativity).

Fixpoint assoc (k : string) (fs : list (string * JsValue)) : option JsValue :=
  match fs with
  | [] => None
  | (k', v) :: fs' => if String.eqb k k' then Some v else assoc k fs'
  end.

(** [o.name]: reading a member of [undefined] or [null] throws a
    [TypeError]; a missing member reads as [undefined].  The names the
    program reads ([botToken], [chat], [id], [date]) are not defined on the
    prototypes of the primitive types, so they read as [undefined] there. *)
Definition get_prop (o : JsValue) (name : string) : Res JsValue :=
  match o with
  | JUndefined | JNull => Throw TypeError
  | JObj fs => match assoc name fs with
               | Some v => Ok v
               | None => Ok JUndefined
               end
  | _ => Ok JUndefined
  end.

(** ToBoolean. *)
Definition truthy (v : JsValue) : bool :=
  match v with
  | JUndefined | JNull => false
  | JBool b => b
  | JNum n => negb (n =? 0)
  | JStr s => negb (String.eqb s "")
  | JObj _ => true
  end.

(** [a === b].  Two objects are equal only when they are the same
    reference; the values compared here come from different requests, so
    two objects compare as different. *)
Definition strict_eq (a b : JsValue) : bool :=
  match a, b with
  | JUndefined, JUndefined => true
  | JNull, JNull => true
  | JBool x, JBool y => Bool.eqb x y
  | JNum x, JNum y => x =? y
  | JStr x, JStr y => String.eqb x y
  | _, _ => false
  end.

(** [ramda.equals]: structural equality; objects are equal when they have
    the same keys with equal values. *)
Fixpoint equals (a b : JsValue) : bool :=
  match a, b with
  | JUndefined, JUndefined => true
  | JNull, JNull => true
  | JBool x, JBool y => Bool.eqb x y
  | JNum x, JNum y => x =? y
  | JStr x, JStr y => String.eqb x y
  | JObj fa, JObj fb =>
      Nat.eqb (List.length fa) (List.length fb) &&
      (fix all_in (l : list (string * JsValue)) : bool :=
         match l with
         | [] => true
         | (k, v) :: l' =>
             match assoc k fb with
             | Some w => equals v w
             | None => false
             end && all_in l'
         end) fa
  | _, _ => false
  end.

(** ToNumber on the values that occur as sort keys; [None] is NaN.  A
    string converts when it is empty or a run of decimal digits. *)
Definition digit_of (c : ascii) : option Z :=
  let n := Z.of_nat (nat_of_ascii c) in
  if (48 <=? n) && (n <=? 57) then Some (n - 48) else None.

Fixpoint digits_value (acc : Z) (s : string) : option Z :=
  match s with
  | EmptyString => Some acc
  | String c s' => match digit_of c with
                   | Some d => digits_value (10 * acc + d) s'
                   | None => None
                   end
  end.

Definition to_number (v : JsValue) : option Z :=
  match v with
  | JUndefined => None
  | JNull => Some 0
  | JBool b => Some (if b then 1 else 0)
  | JNum n => Some n
  | JStr s => digits_value 0 s
  | JObj _ => None
  end.

Fixpoint string_ltb (s t : string) : bool :=
  match s, t with
  | _, EmptyString => false
  | EmptyString, String _ _ => true
  | String a s', String b t' =>
      let x := nat_of_ascii a in
      let y := nat_of_ascii b in
      if Nat.ltb x y then true
      else if Nat.ltb y x then false
      else string_ltb s' t'
  end.

(** [a < b]: two strings compare by code unit, anything else as numbers,
    and a comparison with NaN is false. *)
Definition js_lt (a b : JsValue) : bool :=
  match a, b with
  | JStr s, JStr t => string_ltb s t
  | _, _ => match to_number a, to_number b with
            | Some x, Some y => x <? y
            | _, _ => false
            end
  end.

(** ** The stored record and the server *)

(** The object literal [add] of [addBotMessage] and [addUserMessage]. *)
Record Update : Type := mkUpdate {
  time : Z;
  botToken : JsValue;
  message : JsValue;
  updateId : Z;
  messageId : Z;
  isRead : bool
}.

(** [update[name]] on a stored record: [ramda.prop(name)]. *)
Definition prop (name : string) (u : Update) : JsValue :=
  if String.eqb name "time" then JNum (time u)
  else if String.eqb name "botToken" then botToken u
  else if String.eqb name "message" then message u
  else if String.eqb name "updateId" then JNum (updateId u)
  else if String.eqb name "messageId" then JNum (messageId u)
  else if String.eqb name "isRead" then JBool (isRead u)
  else JUndefined.

Record Storage : Type := mkStorage {
  userMessages : list Update;
  botMessages : list Update
}.

Inductive Event : Type :=
| AddedBotMessage
| AddedUserMessage.

(** The fields of [this] that the storage methods use.  [server] tells
    whether [this.server] is defined; [emitted] lists the events emitted
    so far, latest first. *)
Record TelegramServer : Type := mkServer {
  storeTimeout : Z;
  this_updateId : Z;
  this_messageId : Z;
  storage : Storage;
  started : bool;
  server : bool;
  emitted : list Event
}.

(** The constructor: [config.storeTimeout || 60], times 1000; both counters
    start at 1 and both logs are empty. *)
Definition constructor (configStoreTimeout : option Z) : TelegramServer :=
  let seconds := match configStoreTimeout with
                 | Some s => if s =? 0 then 60 else s
                 | None => 60
                 end in
  {| storeTimeout := seconds * 1000;
     this_updateId := 1;
     this_messageId := 1;
     storage := {| userMessages := []; botMessages := [] |};
     started := false;
     server := false;
     emitted := [] |}.

Definition set_storage (st : Storage) (this : TelegramServer)
    : TelegramServer :=
  {| storeTimeout := storeTimeout this;
     this_updateId := this_updateId this;
     this_messageId := this_messageId this;
     storage := st;
     started := started this;
     server := server this;
     emitted := emitted this |}.

Definition set_started (b : bool) (this : TelegramServer) : TelegramServer :=
  {| storeTimeout := storeTimeout this;
     this_updateId := this_updateId this;
     this_messageId := this_messageId this;
     storage := storage this;
     started := b;
     server := server this;
     emitted := emitted this |}.

Definition set_server (b : bool) (this : TelegramServer) : TelegramServer :=
  {| storeTimeout := storeTimeout this;
     this_updateId := this_updateId this;
     this_messageId := this_messageId this;
     storage := storage this;
     started := started this;
     server := b;
     emitted := emitted this |}.

(** [this.messageId++; this.updateId++; this.emit(ev)]. *)
Definition bump_and_emit (ev : Event) (this : TelegramServer)
    : TelegramServer :=
  {| storeTimeout := storeTimeout this;
     this_updateId := this_updateId this + 1;
     this_messageId := this_messageId this + 1;
     storage := storage this;
     started := started this;
     server := server this;
     emitted := ev :: emitted this |}.

(** The object [add] that both append methods build. *)
Definition new_update (millis : Z) (token msg : JsValue)
    (this : TelegramServer) : Update :=
  {| time := millis;
     botToken := token;
     message := msg;
     updateId := this_updateId this;
     messageId := this_messageId this;
     isRead := false |}.

Definition addBotMessage (millis : Z) (msg token : JsValue)
    (this : TelegramServer) : TelegramServer :=
  let add := new_update millis token msg this in
  let st := storage this in
  bump_and_emit AddedBotMessage
    (set_storage {| userMessages := userMessages st;
                    botMessages := botMessages st ++ [add] |} this).

Definition botToken_assert_msg : string :=
  "The message must be of type object and must contain `botToken` field.".

(** [assert.ok(message.botToken, ...)] comes first: when it throws, nothing
    of [this] has been touched. *)
Definition addUserMessage (millis : Z) (msg : JsValue)
    (this : TelegramServer) : Res TelegramServer :=
  token <- get_prop msg "botToken" ;;
  if truthy token then
    let add := new_update millis token msg this in
    let st := storage this in
    Ok (bump_and_emit AddedUserMessage
          (set_storage {| userMessages := userMessages st ++ [add];
                          botMessages := botMessages st |} this))
  else Throw (AssertionError botToken_assert_msg).

(** [messageFilter]: [millis] is the clock reading it takes. *)
Definition messageFilter (this : TelegramServer) (millis : Z)
    (update : Update) : bool :=
  millis - storeTimeout this <? time update.

(** [Array.prototype.filter] with a callback that reads the clock: the
    callback's [k]-th call gets the reading [clock k]. *)
Fixpoint filter_clocked (f : Z -> Update -> bool) (clock : nat -> Z)
    (k : nat) (l : list Update) : list Update :=
  match l with
  | [] => []
  | u :: l' =>
      if f (clock k) u
      then u :: filter_clocked f clock (S k) l'
      else filter_clocked f clock (S k) l'
  end.

(** [cleanUp]: the user log is filtered first, then the bot log. *)
Definition cleanUp (clock : nat -> Z) (this : TelegramServer)
    : TelegramServer :=
  let st := storage this in
  let users := filter_clocked (messageFilter this) clock 0 (userMessages st) in
  let bots := filter_clocked (messageFilter this) clock
                (List.length (userMessages st)) (botMessages st) in
  set_storage {| userMessages := users; botMessages := bots |} this.

(** [ramda.sortBy(fn)]: a copy of the list sorted with the comparator
    [aa < bb ? -1 : aa > bb ? 1 : 0]; the sort is stable. *)
Fixpoint sort_insert {A} (fn : A -> JsValue) (x : A) (l : list A) : list A :=
  match l with
  | [] => [x]
  | y :: l' =>
      if js_lt (fn y) (fn x) then y :: sort_insert fn x l'
      else x :: y :: l'
  end.

Fixpoint sortBy {A} (fn : A -> JsValue) (l : list A) : list A :=
  match l with
  | [] => []
  | x :: l' => sort_insert fn x (sortBy fn l')
  end.

(** [ramda.propEq(name, val)]: [equals(val, obj[name])]. *)
Definition propEq (name : string) (val : JsValue) (u : Update) : bool :=
  equals val (prop name u).

Definition getUpdatesHistory (token : JsValue) (this : TelegramServer)
    : list Update :=
  let getUpdateDate := prop "date" in
  let isOwnUpdate := propEq "botToken" token in
  sortBy getUpdateDate
    (filter isOwnUpdate
       (botMessages (storage this) ++ userMessages (storage this))).

Definition removeUserMessage (id : JsValue) (this : TelegramServer)
    : TelegramServer :=
  let st := storage this in
  set_storage
    {| userMessages :=
         filter (fun update => negb (strict_eq (JNum (updateId update)) id))
                (userMessages st);
       botMessages := botMessages st |} this.

Definition removeBotMessage (id : JsValue) (this : TelegramServer)
    : TelegramServer :=
  let st := storage this in
  set_storage
    {| userMessages := userMessages st;
       botMessages :=
         filter (fun update => negb (strict_eq (JNum (updateId update)) id))
                (botMessages st) |} this.

(** [update.message.chat.id === chatId && update.messageId === messageId]:
    the two member reads come first and are not guarded. *)
Definition isMessageToDelete (chatId msgId : JsValue) (update : Update)
    : Res bool :=
  chat <- get_prop (message update) "chat" ;;
  id <- get_prop chat "id" ;;
  Ok (strict_eq id chatId && strict_eq (JNum (messageId update)) msgId).

(** [Array.prototype.find]: the first element the predicate accepts; the
    elements after it are not visited, and a throwing predicate ends the
    search. *)
Fixpoint find (p : Update -> Res bool) (l : list Update)
    : Res (option Update) :=
  match l with
  | [] => Ok None
  | u :: l' => b <- p u ;; if b then Ok (Some u) else find p l'
  end.

Definition deleteMessage (chatId msgId : JsValue) (this : TelegramServer)
    : Res (bool * TelegramServer) :=
  userUpdate <- find (isMessageToDelete chatId msgId)
                     (userMessages (storage this)) ;;
  match userUpdate with
  | Some u => Ok (true, removeUserMessage (JNum (updateId u)) this)
  | None =>
      botUpdate <- find (isMessageToDelete chatId msgId)
                        (botMessages (storage this)) ;;
      match botUpdate with
      | Some u => Ok (true, removeBotMessage (JNum (updateId u)) this)
      | None => Ok (false, this)
      end
  end.

Definition close (this : TelegramServer) : TelegramServer :=
  set_storage {| userMessages := []; botMessages := [] |} this.

(** The callback that [stop] passes to [server.shutdown]; without a server
    [stop] does nothing. *)
Definition stop (this : TelegramServer) : TelegramServer :=
  if server this then set_started false (close this) else this.

(** ** Sequences of calls *)

(** A call of one of the storage methods by a client of the class. *)
Inductive Call : Type :=
| CallAddBotMessage (millis : Z) (msg token : JsValue)
| CallAddUserMessage (millis : Z) (msg : JsValue)
| CallCleanUp (clock : nat -> Z)
| CallGetUpdatesHistory (token : JsValue)
| CallRemoveUserMessage (id : JsValue)
| CallRemoveBotMessage (id : JsValue)
| CallDeleteMessage (chatId msgId : JsValue)
| CallClose
| CallStop.

(** The server after a call.  A call that throws leaves the server as it
    was when the exception was raised; both throwing methods raise before
    they write anything. *)
Definition call (c : Call) (this : TelegramServer) : TelegramServer :=
  match c with
  | CallAddBotMessage millis msg token => addBotMessage millis msg token this
  | CallAddUserMessage millis msg =>
      match addUserMessage millis msg this with
      | Ok this' => this'
      | Throw _ => this
      end
  | CallCleanUp clock => cleanUp clock this
  | CallGetUpdatesHistory _ => this
  | CallRemoveUserMessage id => removeUserMessage id this
  | CallRemoveBotMessage id => removeBotMessage id this
  | CallDeleteMessage chatId msgId =>
      match deleteMessage chatId msgId this with
      | Ok (_, this') => this'
      | Throw _ => this
      end
  | CallClose => close this
  | CallStop => stop this
  end.

(** The records that a call pushes on a log: what is at the end of a log
    after the call and was not in it before. *)
Definition pushed (c : Call) (this : TelegramServer) : list Update :=
  let before := storage this in
  let after := storage (call c this) in
  skipn (List.length (botMessages before)) (botMessages after) ++
  skipn (List.length (userMessages before)) (userMessages after).

Fixpoint run (cs : list Call) (this : TelegramServer) : TelegramServer :=
  match cs with
  | [] => this
  | c :: cs' => run cs' (call c this)
  end.

(** All the records stored in the course of a sequence of calls, in the
    order in which they were stored. *)
Fixpoint stored (cs : list Call) (this : TelegramServer) : list Update :=
  match cs with
  | [] => []
  | c :: cs' => pushed c this ++ stored cs' (call c this)
  end.

(** The call is an append that returns: [addBotMessage] always,
    [addUserMessage] when its assertion holds. *)
Definition goes_through (c : Call) (this : TelegramServer) : bool :=
  match c with
  | CallAddBotMessage _ _ _ => true
  | CallAddUserMessage millis msg =>
      match addUserMessage millis msg this with
      | Ok _ => true
      | Throw _ => false
      end
  | _ => false
  end.

(** The number of appends that return in the course of a sequence of
    calls. *)
Fixpoint appended (cs : list Call) (this : TelegramServer) : nat :=
  match cs with
  | [] => 0%nat
  | c :: cs' =>
      ((if goes_through c this then 1 else 0) + appended cs' (call c this))%nat
  end.

(** ** The clean-up daemon on the event loop *)

(** The event loop as far as the daemon is concerned: the server, the
    current time, the due times of the pending
    [Promise.delay(storeTimeout).then(() => self.cleanUpDaemon())]
    callbacks, and (for the statements only) the times at which the daemon
    has run [cleanUp].  A delay expires no earlier than asked, possibly
    later; a callback runs to completion at one instant. *)
Record Loop : Type := mkLoop {
  self : TelegramServer;
  now : Z;
  timers : list Z;
  sweeps : list Z
}.

Definition cleanUpDaemon (w : Loop) : Loop :=
  if started (self w) then
    {| self := cleanUp (fun _ => now w) (self w);
       now := now w;
       timers := timers w ++ [now w + storeTimeout (self w)];
       sweeps := sweeps w ++ [now w] |}
  else w.

Fixpoint remove_nth {A} (i : nat) (l : list A) : list A :=
  match l, i with
  | [], _ => []
  | _ :: l', O => l'
  | x :: l', S i' => x :: remove_nth i' l'
  end.

Inductive LoopEvent : Type :=
| Elapse (d : Z)          (* time passes *)
| Fire (i : nat)          (* the i-th pending delay expires *)
| Listening               (* the [listen] callback of [start] runs *)
| ShutDown                (* the [shutdown] callback of [stop] runs *)
| Api (c : Call).         (* a storage method is called *)

(** One turn of the loop; [None] when the event cannot happen in [w]. *)
Definition step (e : LoopEvent) (w : Loop) : option Loop :=
  match e with
  | Elapse d =>
      if 0 <=? d
      then Some {| self := self w; now := now w + d;
                   timers := timers w; sweeps := sweeps w |}
      else None
  | Fire i =>
      match nth_error (timers w) i with
      | Some due =>
          if due <=? now w
          then Some (cleanUpDaemon
                       {| self := self w; now := now w;
                          timers := remove_nth i (timers w);
                          sweeps := sweeps w |})
          else None
      | None => None
      end
  | Listening =>
      Some (cleanUpDaemon
              {| self := set_started true (set_server true (self w));
                 now := now w; timers := timers w; sweeps := sweeps w |})
  | ShutDown =>
      if server (self w)
      then Some {| self := stop (self w); now := now w;
                   timers := timers w; sweeps := sweeps w |}
      else None
  | Api c =>
      Some {| self := call c (self w); now := now w;
              timers := timers w; sweeps := sweeps w |}
  end.

Fixpoint steps (es : list LoopEvent) (w : Loop) : option Loop :=
  match es with
  | [] => Some w
  | e :: es' => match step e w with
                | Some w' => steps es' w'
                | None => None
                end
  end.

Definition is_Listening (e : LoopEvent) : bool :=
  match e with
  | Listening => true
  | _ => false
  end.

(** ** Predicates used in the statements *)

(** Both [update.message] and [update.message.chat] can be read from:
    neither is [undefined] or [null]. *)
Definition chat_readable (u : Update) : bool :=
  match get_prop (message u) "chat" with
  | Ok chat => match get_prop chat "id" with
               | Ok _ => true
               | Throw _ => false
               end
  | Throw _ => false
  end.

(** The payload is an object with a [chat] object that has an [id]. *)
Definition has_chat_id (u : Update) : bool :=
  match message u with
  | JObj fs =>
      match assoc "chat" fs with
      | Some (JObj cfs) =>
          match assoc "id" cfs with
          | Some _ => true
          | None => false
          end
      | _ => false
      end
  | _ => false
  end.

(** [isMessageToDelete] returns [true]. *)
Definition matches (chatId msgId : JsValue) (u : Update) : bool :=
  match isMessageToDelete chatId msgId u with
  | Ok b => b
  | Throw _ => false
  end.

(** [deleteMessage] returns a boolean whatever its arguments. *)
Definition deleteMessage_total (this : TelegramServer) : Prop :=
  forall chatId msgId, exists b this',
    deleteMessage chatId msgId this = Ok (b, this').

Definition all_updates (this : TelegramServer) : list Update :=
  userMessages (storage this) ++ botMessages (storage this).

(** The [date] of the payload of a record, when it is a number. *)
Definition payload_date (u : Update) : option Z :=
  match get_prop (message u) "date" with
  | Ok (JNum d) => Some d
  | _ => None
  end.

Fixpoint ascending (l : list (option Z)) : bool :=
  match l with
  | Some x :: ((Some y :: _) as l') => (x <=? y) && ascending l'
  | _ :: l' => ascending l'
  | [] => true
  end.

(** ** Sample data *)

Definition sample_payload (chat : Z) (date : Z) : JsValue :=
  JObj [("botToken", JStr "token");
        ("chat", JObj [("id", JNum chat)]);
        ("date", JNum date);
        ("text", JStr "hello")].

(** A payload without [botToken]. *)
Definition anonymous_payload : JsValue :=
  JObj [("chat", JObj [("id", JNum 1)]); ("text", JStr "hello")].

(** A payload whose [chat] has no [id]. *)
Definition idless_payload : JsValue :=
  JObj [("botToken", JStr "token"); ("chat", JObj [])].

(** A user writes at second 10 and the bot answers at second 20. *)
Definition sample_dialogue : TelegramServer :=
  run [CallAddUserMessage 10000 (sample_payload 1 10);
       CallAddBotMessage 20000 (sample_payload 1 20) (JStr "token")]
      (constructor None).

(** Two user messages whose [date]s, set by the sender, go backwards. *)
Definition sample_backdated : TelegramServer :=
  run [CallAddUserMessage 10000 (sample_payload 1 20);
       CallAddUserMessage 11000 (sample_payload 1 10)]
      (constructor None).

(** A record in each log for chat 1 and message 1. *)
Definition sample_user_update : Update :=
  {| time := 0; botToken := JStr "token"; message := sample_payload 1 10;
     updateId := 2; messageId := 1; isRead := false |}.

Definition sample_bot_update : Update :=
  {| time := 0; botToken := JStr "token"; message := sample_payload 1 10;
     updateId := 1; messageId := 1; isRead := false |}.

Definition sample_pair : TelegramServer :=
  set_storage {| userMessages := [sample_user_update];
                 botMessages := [sample_bot_update] |}
              (constructor None).

Definition sample_idless : TelegramServer :=
  addBotMessage 0 idless_payload (JStr "token") (constructor None).

(** A server with the default time to live of 60 s that stored a
    message in each log at time 0, and one in each at 61 s. *)
Definition sample_aging : TelegramServer :=
  run [CallAddUserMessage 0 (sample_payload 1 0);
       CallAddBotMessage 0 (sample_payload 1 0) (JStr "token");
       CallAddUserMessage 61000 (sample_payload 1 61);
       CallAddBotMessage 61000 (sample_payload 1 61) (JStr "token")]
      (constructor (Some 60)).

(** A loop on which the server was started at time 0 and a minute has
    passed: the first sweep is done and the delay of the second is over. *)
Definition sample_loop : Loop :=
  {| self := set_started true (set_server true (constructor None));
     now := 60000;
     timers := [60000];
     sweeps := [0] |}.

(** The same loop once the [shutdown] callback of [stop] has run. *)
Definition sample_loop_stopped : Loop :=
  {| self := stop (self sample_loop);
     now := 60000;
     timers := [60000];
     sweeps := [0] |}.

(** ** Shape of the logs *)

(** [l'] is [l] with some elements left out, the others in their order:
    what [Array.prototype.filter] returns. *)
Inductive subseq {A : Type} : list A -> list A -> Prop :=
| subseq_nil : subseq [] []
| subseq_skip (x : A) (l' l : list A) : subseq l' l -> subseq l' (x :: l)
| subseq_keep (x : A) (l' l : list A) :
    subseq l' l -> subseq (x :: l') (x :: l).

Definition is_append (c : Call) : bool :=
  match c with
  | CallAddBotMessage _ _ _ | CallAddUserMessage _ _ => true
  | _ => false
  end.

Definition is_stop (e : LoopEvent) : bool :=
  match e with
  | ShutDown | Api CallStop => true
  | _ => false
  end.

(** What holds of a server that is only used through its methods: the two
    counters agree, every record carries equal identities below the
    counters, each log is in increasing order of [updateId], and no
    [updateId] is in both logs. *)
Definition store_invariant (this : TelegramServer) : Prop :=
  this_updateId this = this_messageId this /\
  Forall (fun u => updateId u = messageId u /\ updateId u < this_updateId this)
         (all_updates this) /\
  StronglySorted Z.lt (map updateId (userMessages (storage this))) /\
  StronglySorted Z.lt (map updateId (botMessages (storage this))) /\
  Forall (fun u => Forall (fun b => updateId u <> updateId b)
                          (botMessages (storage this)))
         (userMessages (storage this)).

(** Consecutive times of [l] are at least [d] apart. *)
Fixpoint spaced (d : Z) (l : list Z) : Prop :=
  match l with
  | a :: ((b :: _) as l') => a + d <= b /\ spaced d l'
  | _ => True
  end.

(** A loop on which the server has been made and not started yet. *)
Definition new_loop (config : option Z) (t : Z) : Loop :=
  {| self := constructor config; now := t; timers := []; sweeps := [] |}.

(** ** Waiting for a message *)

Definition Event_eqb (a b : Event) : bool :=
  match a, b with
  | AddedBotMessage, AddedBotMessage => true
  | AddedUserMessage, AddedUserMessage => true
  | _, _ => false
  end.

(** The server as an [EventEmitter]: its listeners in the order of their
    registration, each the [() => resolve()] of the promise with the given
    number; the promises resolved so far; the number of promises made. *)
Record Observed : Type := mkObserved {
  observed : TelegramServer;
  listeners : list (Event * nat);
  resolved : list nat;
  promises : nat
}.

(** [new Promise(resolve => this.on(ev, () => resolve()))]: the new promise
    and the server with one more listener.  No listener is ever taken
    off. *)
Definition wait (ev : Event) (o : Observed) : nat * Observed :=
  (promises o,
   {| observed := observed o;
      listeners := listeners o ++ [(ev, promises o)];
      resolved := resolved o;
      promises := S (promises o) |}).

Definition waitBotMessage : Observed -> nat * Observed :=
  wait AddedBotMessage.

Definition waitUserMessage : Observed -> nat * Observed :=
  wait AddedUserMessage.

(** [this.emit(ev)]: every listener of [ev] is called, in order. *)
Definition emit (ev : Event) (o : Observed) : Observed :=
  {| observed := observed o;
     listeners := listeners o;
     resolved :=
       resolved o
       ++ map snd (filter (fun l => Event_eqb (fst l) ev) (listeners o));
     promises := promises o |}.

(** A method call on a server with listeners: the events that the call
    emitted reach the listeners. *)
Definition observed_call (c : Call) (o : Observed) : Observed :=
  let this' := call c (observed o) in
  let fired :=
    firstn (List.length (emitted this') - List.length (emitted (observed o)))
           (emitted this') in
  fold_right emit
    {| observed := this'; listeners := listeners o;
       resolved := resolved o; promises := promises o |}
    fired.

Inductive Act : Type :=
| ActCall (c : Call)
| ActWaitBotMessage
| ActWaitUserMessage.

Definition act (a : Act) (o : Observed) : Observed :=
  match a with
  | ActCall c => observed_call c o
  | ActWaitBotMessage => snd (waitBotMessage o)
  | ActWaitUserMessage => snd (waitUserMessage o)
  end.

Fixpoint acts (l : list Act) (o : Observed) : Observed :=
  match l with
  | [] => o
  | a :: l' => acts l' (act a o)
  end.

Definition is_resolved (p : nat) (o : Observed) : bool :=
  existsb (Nat.eqb p) (resolved o).

(** The call is an append of the channel [ev] that goes through. *)
Definition appends_on (ev : Event) (a : Act) (o : Observed) : bool :=
  match a, ev with
  | ActCall (CallAddBotMessage _ _ _), AddedBotMessage => true
  | ActCall (CallAddUserMessage millis msg), AddedUserMessage =>
      match addUserMessage millis msg (observed o) with
      | Ok _ => true
      | Throw _ => false
      end
  | _, _ => false
  end.

(** No act of [l], run from [o], is an append of the channel [ev] that
    goes through. *)
Fixpoint quiet_on (ev : Event) (l : list Act) (o : Observed) : bool :=
  match l with
  | [] => true
  | a :: l' => negb (appends_on ev a o) && quiet_on ev l' (act a o)
  end.

(** A server on which nobody waits yet. *)
Definition observe (this : TelegramServer) : Observed :=
  {| observed := this; listeners := []; resolved := []; promises := 0 |}.

Definition is_wait (a : Act) : bool :=
  match a with
  | ActCall _ => false
  | _ => true
  end.

(** Promises are numbered as they are made. *)
Definition observed_wf (o : Observed) : Prop :=
  Forall (fun q => (q < promises o)%nat) (resolved o) /\
  Forall (fun l => (snd l < promises o)%nat) (listeners o).

(** ** The client *)

Module Client.

(** What a method of the client can throw: an error of the language, or
    [new Error(msg)]. *)
Inductive Exception : Type :=
| Native (e : JsError)
| Error (msg : string).

Inductive Outcome (A : Type) : Type :=
| Return (a : A)
| Raise (e : Exception).
Arguments Return {A} a.
Arguments Raise {A} e.

Record TelegramClient : Type := mkClient {
  userId : JsValue;
  timeout : JsValue;
  interval : JsValue;
  chatId : JsValue;
  firstName : JsValue;
  userName : JsValue;
  type : JsValue;
  url : JsValue;
  botToken : JsValue
}.

(** A parameter with the default [{}]: the default stands in for
    [undefined] only. *)
Definition default_options (options : JsValue) : JsValue :=
  match options with
  | JUndefined => JObj []
  | _ => options
  end.

(** [options.name || dflt]. *)
Definition option_or (options : JsValue) (name : string) (dflt : JsValue)
    : Res JsValue :=
  v <- get_prop options name ;;
  Ok (if truthy v then v else dflt).

(** The options are read first, in the order of the fields; then [url] and
    [botToken] are checked, in this order. *)
Definition constructor (url botToken options : JsValue)
    : Outcome TelegramClient :=
  let options := default_options options in
  let fields :=
    userId <- option_or options "userId" (JNum 1) ;;
    timeout <- option_or options "timeout" (JNum 1000) ;;
    interval <- option_or options "interval" (JNum 100) ;;
    chatId <- option_or options "chatId" (JNum 1) ;;
    firstName <- option_or options "firstName" (JStr "TestName") ;;
    userName <- option_or options "userName" (JStr "testUserName") ;;
    type <- option_or options "type" (JStr "private") ;;
    Ok (mkClient userId timeout interval chatId firstName userName type
                 url botToken) in
  match fields with
  | Throw e => Raise (Native e)
  | Ok this =>
      match url with
      | JUndefined => Raise (Error "Please define telegram api URL")
      | _ =>
          match botToken with
          | JUndefined => Raise (Error "Please define bot token")
          | _ => Return this
          end
      end
  end.

Definition has_key (k : string) (fs : list (string * JsValue)) : bool :=
  match assoc k fs with
  | Some _ => true
  | None => false
  end.

(** [ramda.mergeDeepRight(l, r)] on two objects: the keys of [l] in their
    order, each with the value of [r] when [r] has the key (the two values
    merged when both are objects), then the keys that only [r] has. *)
Fixpoint merge_value (lv rv : JsValue) : JsValue :=
  match lv, rv with
  | JObj lf, JObj rf =>
      JObj ((fix merge_fields (fs : list (string * JsValue))
               : list (string * JsValue) :=
               match fs with
               | [] => []
               | (k, v) :: fs' =>
                   (k, match assoc k rf with
                       | Some w => merge_value v w
                       | None => v
                       end) :: merge_fields fs'
               end) lf
            ++ filter (fun kv => negb (has_key (fst kv) lf)) rf)
  | _, _ => rv
  end.

Definition mergeDeepRight (l r : list (string * JsValue))
    : list (string * JsValue) :=
  match merge_value (JObj l) (JObj r) with
  | JObj fs => fs
  | _ => []
  end.

(** [makeMessage(messageText, options)]; [millis] is the reading of
    [Date.now()].  The options are an object when they are given. *)
Definition makeMessage (millis : Z) (messageText : JsValue)
    (options : option (list (string * JsValue))) (this : TelegramClient)
    : JsValue :=
  let options := match options with
                 | Some fs => fs
                 | None => []
                 end in
  JObj (mergeDeepRight
          [("botToken", botToken this);
           ("from", JObj [("id", userId this);
                          ("first_name", firstName this);
                          ("username", userName this)]);
           ("chat", JObj [("id", chatId this);
                          ("first_name", firstName this);
                          ("username", userName this);
                          ("type", type this)]);
           ("date", JNum (millis / 1000));
           ("text", messageText)]
          options).

End Client.

(** [getClient(botToken, options)]; [apiURL] is the string [this.ApiURL]. *)
Definition getClient (apiURL : string) (botToken options : JsValue)
    : Client.Outcome Client.TelegramClient :=
  Client.constructor (JStr apiURL) botToken options.

(** [msg.chat.id], as [deleteMessage] reads it from a payload. *)
Definition chat_id_of (msg : JsValue) : Res JsValue :=
  chat <- get_prop msg "chat" ;;
  get_prop chat "id".

(** ** Long polling *)

(** ToString. *)
Definition js_to_string (v : JsValue) : string :=
  match v with
  | JUndefined => "undefined"
  | JNull => "null"
  | JBool b => if b then "true" else "false"
  | JNum n => NilZero.string_of_int (Z.to_int n)
  | JStr s => s
  | JObj _ => "[object Object]"
  end.

(** [v.length].  An array is the object of its elements, under their
    indices, and of its [length]; a string has the length of its text. *)
Definition get_length (v : JsValue) : Res JsValue :=
  match v with
  | JUndefined | JNull => Throw TypeError
  | JStr s => Ok (JNum (Z.of_nat (String.length s)))
  | JObj fs => match assoc "length" fs with
               | Some n => Ok n
               | None => Ok JUndefined
               end
  | _ => Ok JUndefined
  end.

(** [a >= b]. *)
Definition js_ge (a b : JsValue) : bool :=
  match a, b with
  | JStr s, JStr t => negb (string_ltb s t)
  | _, _ => match to_number a, to_number b with
            | Some x, Some y => y <=? x
            | _, _ => false
            end
  end.

(** [update.result !== undefined && update.result.length >= 1]. *)
Definition has_updates (update : JsValue) : Res bool :=
  result <- get_prop update "result" ;;
  if negb (strict_eq result JUndefined)
  then len <- get_length result ;; Ok (js_ge len (JNum 1))
  else Ok false.

(** Why a promise is rejected: the [TimeoutError] of [.timeout], with its
    message, or what a callback threw. *)
Inductive Rejection : Type :=
| TimeoutError (message : string)
| Thrown (e : JsError).

(** A promise that is settled, with the time at which it was. *)
Inductive Settled : Type :=
| Fulfilled (instant : Z) (value : JsValue)
| Rejected (instant : Z) (reason : Rejection).

Definition settled_at (s : Settled) : Z :=
  match s with
  | Fulfilled t _ | Rejected t _ => t
  end.

(** What is known of a promise: how it settles, or only that it has not
    settled before [since]. *)
Inductive Promise : Type :=
| Settles (s : Settled)
| Pending (since : Z).

(** The promise rejected with [message] at [deadline] unless [p] settles
    before; a timer that is due wins over a settlement of the same
    instant. *)
Definition expire (deadline : Z) (message : string) (p : Promise) : Promise :=
  match p with
  | Settles s =>
      if settled_at s <? deadline then Settles s
      else Settles (Rejected deadline (TimeoutError message))
  | Pending since =>
      if deadline <=? since
      then Settles (Rejected deadline (TimeoutError message))
      else Pending since
  end.

(** [p.timeout(ms, message)], called at [t]. *)
Definition timeoutP (t ms : Z) (message : string) (p : Promise) : Promise :=
  expire (t + ms) message p.

(** The answer to a request: how long it takes (not a negative time) and
    the body it brings.  The requests of a client are answered one after
    the other by [replies 0], [replies 1], ... *)
Record Reply : Type := mkReply {
  latency : Z;
  body : JsValue
}.

(** A number of milliseconds given to a timer. *)
Definition millis_of (v : JsValue) : Z :=
  match to_number v with
  | Some n => n
  | None => 0
  end.

Definition timeout_message (this : Client.TelegramClient) : string :=
  "did not get new updates in " ++ js_to_string (Client.timeout this)
  ++ " ms".

(** [getUpdates()], called at [t] for the request number [k].  Every call
    wraps its own [.timeout]; the call after an empty answer is made
    [interval] later.  [fuel] bounds the number of requests looked at: past
    it the promise is only known not to have settled yet. *)
Fixpoint getUpdates (fuel : nat) (this : Client.TelegramClient)
    (replies : nat -> Reply) (k : nat) (t : Z) : Promise :=
  match fuel with
  | O => Pending t
  | S fuel' =>
      let reply := replies k in
      let t1 := t + latency reply in
      timeoutP t (millis_of (Client.timeout this)) (timeout_message this)
        match has_updates (body reply) with
        | Throw e => Settles (Rejected t1 (Thrown e))
        | Ok true => Settles (Fulfilled t1 (body reply))
        | Ok false =>
            getUpdates fuel' this replies (S k)
                       (t1 + millis_of (Client.interval this))
        end
  end.

(** The same loop without its timers. *)
Fixpoint poll (fuel : nat) (interval : Z) (replies : nat -> Reply)
    (k : nat) (t : Z) : Promise :=
  match fuel with
  | O => Pending t
  | S fuel' =>
      let reply := replies k in
      let t1 := t + latency reply in
      match has_updates (body reply) with
      | Throw e => Settles (Rejected t1 (Thrown e))
      | Ok true => Settles (Fulfilled t1 (body reply))
      | Ok false => poll fuel' interval replies (S k) (t1 + interval)
      end
  end.

(** When the request number [k] is sent and when its answer arrives, the
    answers before it being empty: the first request goes out at [t0],
    each other one [interval] after the answer to the one before. *)
Fixpoint sent (interval : Z) (replies : nat -> Reply) (t0 : Z) (k : nat)
    : Z :=
  match k with
  | O => t0
  | S k' => sent interval replies t0 k' + latency (replies k') + interval
  end.

Definition arrives (interval : Z) (replies : nat -> Reply) (t0 : Z)
    (k : nat) : Z :=
  sent interval replies t0 k + latency (replies k).

(** The answer number [k] is the first that is not empty. *)
Definition first_update (replies : nat -> Reply) (k : nat) : Prop :=
  has_updates (body (replies k)) = Ok true /\
  forall j, (j < k)%nat -> has_updates (body (replies j)) = Ok false.

(** Bodies of answers: no update, and one update. *)
Definition no_update : JsValue :=
  JObj [("ok", JBool true); ("result", JObj [("length", JNum 0)])].

Definition one_update : JsValue :=
  JObj [("ok", JBool true);
        ("result", JObj [("0", JObj [("updateId", JNum 1)]);
                         ("length", JNum 1)])].

Definition replies_never : nat -> Reply :=
  fun _ => {| latency := 10; body := no_update |}.

Definition replies_late : nat -> Reply :=
  fun _ => {| latency := 300; body := one_update |}.

Definition replies_third : nat -> Reply :=
  fun k => {| latency := 10;
              body := if (k <? 2)%nat then no_update else one_update |}.

(** The client that [getClient] makes for the sample token, without
    options. *)
Definition sample_client : Client.TelegramClient :=
  Client.mkClient (JNum 1) (JNum 1000) (JNum 100) (JNum 1)
    (JStr "TestName") (JStr "testUserName") (JStr "private")
    (JStr "http://localhost:9000") (JStr "token").

(** ** Lists *)

Lemma skipn_length_app {A} (l l' : list A) :
  skipn (List.length l) (l ++ l') = l'.
Proof.
  induction l as [|x l IH]; simpl; auto.
Qed.

Lemma skipn_length_self {A} (l : list A) : skipn (List.length l) l = [].
Proof.
  induction l as [|x l IH]; simpl; auto.
Qed.

Lemma skipn_short {A} (n : nat) (l : list A) :
  (List.length l <= n)%nat -> skipn n l = [].
Proof.
  revert n; induction l as [|x l IH]; intros [|n] H; simpl in *;
    try reflexivity; try lia.
  apply IH; lia.
Qed.

Lemma filter_clocked_const f clock t k l :
  (forall i, clock i = t) ->
  filter_clocked f clock k l = filter (f t) l.
Proof.
  intros Hc; revert k; induction l as [|u l IH]; intros k; simpl; auto.
  rewrite Hc, IH; reflexivity.
Qed.

Lemma filter_clocked_length f clock k l :
  (List.length (filter_clocked f clock k l) <= List.length l)%nat.
Proof.
  revert k; induction l as [|u l IH]; intros k; simpl; auto.
  destruct (f (clock k) u); simpl; specialize (IH (S k)); lia.
Qed.

Lemma filter_clocked_In f clock k l u :
  In u (filter_clocked f clock k l) -> In u l.
Proof.
  revert k; induction l as [|x l IH]; intros k; simpl; auto.
  destruct (f (clock k) x); simpl; intros H.
  - destruct H as [H|H]; eauto.
  - eauto.
Qed.

Lemma filter_length_le {A} (f : A -> bool) l :
  (List.length (filter f l) <= List.length l)%nat.
Proof.
  induction l as [|x l IH]; simpl; auto.
  destruct (f x); simpl; lia.
Qed.

Lemma sort_insert_undefined {A} (fn : A -> JsValue) x l :
  fn x = JUndefined -> sort_insert fn x l = x :: l.
Proof.
  intros Hx; destruct l as [|y l]; simpl; auto.
  rewrite Hx. unfold js_lt.
  destruct (fn y); simpl; try reflexivity.
  destruct (digits_value 0 s); reflexivity.
Qed.

Lemma sortBy_undefined {A} (fn : A -> JsValue) l :
  (forall x, fn x = JUndefined) -> sortBy fn l = l.
Proof.
  intros H; induction l as [|x l IH]; simpl; auto.
  rewrite IH. apply sort_insert_undefined, H.
Qed.

(** No stored record has a [date] member of its own: the [date] of a
    message is inside [message]. *)
Lemma prop_date_undefined u : prop "date" u = JUndefined.
Proof. reflexivity. Qed.

(** So the history is the matching records in log order, the bot log
    first. *)
Lemma getUpdatesHistory_filter token this :
  getUpdatesHistory token this =
  filter (propEq "botToken" token)
    (botMessages (storage this) ++ userMessages (storage this)).
Proof.
  unfold getUpdatesHistory. apply sortBy_undefined, prop_date_undefined.
Qed.

(** ** Appending a user message *)

(** C4.  When the payload has no [botToken] (reading it gives
    [undefined]), [addUserMessage] throws the assertion error, and the
    server after the call is the server before it: both logs, so their
    lengths, and both counters are what they were. *)
Theorem addUserMessage_requires_botToken :
  forall millis msg this,
    get_prop msg "botToken" = Ok JUndefined ->
    addUserMessage millis msg this
      = Throw (AssertionError botToken_assert_msg) /\
    let this' := call (CallAddUserMessage millis msg) this in
    this' = this /\
    List.length (userMessages (storage this'))
      = List.length (userMessages (storage this)) /\
    List.length (botMessages (storage this'))
      = List.length (botMessages (storage this)) /\
    this_updateId this' = this_updateId this /\
    this_messageId this' = this_messageId this.
Proof.
  intros millis msg this Hread.
  assert (Hthrow : addUserMessage millis msg this
                   = Throw (AssertionError botToken_assert_msg)).
  { unfold addUserMessage. rewrite Hread. reflexivity. }
  split; [exact Hthrow|].
  cbv zeta. unfold call. rewrite Hthrow. repeat split; reflexivity.
Qed.

Lemma addUserMessage_requires_botToken_witness :
  get_prop anonymous_payload "botToken" = Ok JUndefined /\
  addUserMessage 5 anonymous_payload sample_dialogue
    = Throw (AssertionError botToken_assert_msg) /\
  call (CallAddUserMessage 5 anonymous_payload) sample_dialogue
    = sample_dialogue.
Proof.
  pose proof (addUserMessage_requires_botToken 5 anonymous_payload
                sample_dialogue eq_refl) as [Hthrow [Hsame _]].
  split; [reflexivity|]. split; [exact Hthrow | exact Hsame].
Defined.

(** ** Eviction *)

(** C6.  A sweep that reads the time [t] keeps in each log exactly the
    records with [time > t - storeTimeout], the two logs apart.  With
    [ttl = storeTimeout] and a sweep at [ttl + 2 * h], [0 < h < ttl], no
    record stored at time 0 is left in either log, and a record stored at
    [ttl + h] stays in its log. *)
Theorem cleanUp_keeps_fresh :
  forall ttl t clock this,
    storeTimeout this = ttl ->
    (forall k, clock k = t) ->
    let this' := cleanUp clock this in
    userMessages (storage this')
      = filter (fun u => t - ttl <? time u) (userMessages (storage this)) /\
    botMessages (storage this')
      = filter (fun u => t - ttl <? time u) (botMessages (storage this)) /\
    forall h, 0 < h < ttl -> t = ttl + 2 * h ->
      (forall u, time u = 0 ->
         ~ In u (userMessages (storage this')) /\
         ~ In u (botMessages (storage this'))) /\
      (forall u, time u = ttl + h ->
         (In u (userMessages (storage this)) ->
          In u (userMessages (storage this'))) /\
         (In u (botMessages (storage this)) ->
          In u (botMessages (storage this')))).
Proof.
  intros ttl t clock this Httl Hclock this'.
  assert (Hu : userMessages (storage this')
               = filter (fun u => t - ttl <? time u)
                        (userMessages (storage this))).
  { subst this'; unfold cleanUp; simpl.
    rewrite (filter_clocked_const _ _ t) by exact Hclock.
    unfold messageFilter; rewrite Httl; reflexivity. }
  assert (Hb : botMessages (storage this')
               = filter (fun u => t - ttl <? time u)
                        (botMessages (storage this))).
  { subst this'; unfold cleanUp; simpl.
    rewrite (filter_clocked_const _ _ t) by exact Hclock.
    unfold messageFilter; rewrite Httl; reflexivity. }
  split; [exact Hu|]. split; [exact Hb|].
  intros h Hh Ht. rewrite Hu, Hb. split.
  - intros u Hu0; split; intros Hin; apply filter_In in Hin;
      destruct Hin as [_ Hlt]; apply Z.ltb_lt in Hlt; lia.
  - intros u Hut; split; intros Hin; apply filter_In; (split; [exact Hin|]);
      apply Z.ltb_lt; lia.
Qed.

Lemma cleanUp_keeps_fresh_witness :
  let this' := cleanUp (fun _ => 62000) sample_aging in
  userMessages (storage this')
    = filter (fun u => 62000 - 60000 <? time u)
             (userMessages (storage sample_aging)) /\
  botMessages (storage this')
    = filter (fun u => 62000 - 60000 <? time u)
             (botMessages (storage sample_aging)) /\
  (forall u, time u = 0 ->
     ~ In u (userMessages (storage this')) /\
     ~ In u (botMessages (storage this'))) /\
  (forall u, time u = 60000 + 1000 ->
     (In u (userMessages (storage sample_aging)) ->
      In u (userMessages (storage this'))) /\
     (In u (botMessages (storage sample_aging)) ->
      In u (botMessages (storage this')))).
Proof.
  pose proof (cleanUp_keeps_fresh 60000 62000 (fun _ => 62000) sample_aging
                eq_refl (fun _ => eq_refl)) as [Hu [Hb Hex]].
  split; [exact Hu|]. split; [exact Hb|].
  apply (Hex 1000); [lia | reflexivity].
Defined.

(** ** History *)

(** C2.  In [sample_dialogue] the user wrote at second 10 and the bot
    answered at second 20; the history of the token lists the answer
    first, so it is not in ascending order of the payloads' [date].  In
    [sample_backdated] the two user messages stay in the order in which
    they were stored, dates 20 then 10.  The history does hold the records
    of the token, all of them, bot log first, and the server is not
    written to. *)
Theorem getUpdatesHistory_ignores_payload_date :
  let history := getUpdatesHistory (JStr "token") sample_dialogue in
  let history' := getUpdatesHistory (JStr "token") sample_backdated in
  map payload_date history = [Some 20; Some 10] /\
  ascending (map payload_date history) = false /\
  history = botMessages (storage sample_dialogue)
            ++ userMessages (storage sample_dialogue) /\
  map payload_date history' = [Some 20; Some 10] /\
  ascending (map payload_date history') = false /\
  call (CallGetUpdatesHistory (JStr "token")) sample_dialogue
    = sample_dialogue.
Proof.
  cbv zeta. repeat split; vm_compute; reflexivity.
Qed.

(** ** Deleting a message *)

Lemma find_filter_head {A} (f : A -> bool) l x r :
  filter f l = x :: r -> List.find f l = Some x.
Proof.
  induction l as [|y l IH]; simpl; [discriminate|].
  destruct (f y); [congruence | exact IH].
Qed.

Lemma find_filter_nil {A} (f : A -> bool) l :
  filter f l = [] -> List.find f l = None.
Proof.
  induction l as [|y l IH]; simpl; [reflexivity|].
  destruct (f y); [discriminate | exact IH].
Qed.

Lemma filter_swap {A} (f g : A -> bool) l :
  filter f (filter g l) = filter g (filter f l).
Proof.
  induction l as [|x l IH]; simpl; [reflexivity|].
  destruct (g x) eqn:Eg, (f x) eqn:Ef; simpl;
    rewrite ?Eg, ?Ef, IH; reflexivity.
Qed.

Lemma Forall_filter_keep {A} (P : A -> Prop) (f : A -> bool) l :
  Forall P l -> Forall P (filter f l).
Proof.
  induction 1 as [|x l Hx Hl IH]; simpl; [constructor|].
  destruct (f x); [constructor; assumption | assumption].
Qed.

Section Search.

Variables chatId msgId : JsValue.

Let readable (l : list Update) : Prop :=
  Forall (fun u => chat_readable u = true) l.

(** The predicate returns exactly on the readable records. *)
Lemma isMessageToDelete_readable u :
  chat_readable u = true ->
  isMessageToDelete chatId msgId u = Ok (matches chatId msgId u).
Proof.
  unfold chat_readable, matches, isMessageToDelete.
  destruct (get_prop (message u) "chat") as [chat|e]; simpl;
    [|discriminate].
  destruct (get_prop chat "id") as [id|e]; simpl; [|discriminate].
  reflexivity.
Qed.

Lemma isMessageToDelete_Ok u b :
  isMessageToDelete chatId msgId u = Ok b -> chat_readable u = true.
Proof.
  unfold chat_readable, isMessageToDelete.
  destruct (get_prop (message u) "chat") as [chat|e]; simpl;
    [|discriminate].
  destruct (get_prop chat "id") as [id|e]; simpl; [|discriminate].
  reflexivity.
Qed.

(** On readable records the search is the plain search of the list. *)
Lemma find_readable l :
  readable l ->
  find (isMessageToDelete chatId msgId) l
    = Ok (List.find (matches chatId msgId) l).
Proof.
  induction 1 as [|u l Hu Hl IH]; simpl; [reflexivity|].
  rewrite (isMessageToDelete_readable _ Hu); simpl.
  destruct (matches chatId msgId u); [reflexivity | exact IH].
Qed.

Lemma deleteMessage_user_hit this u r :
  readable (userMessages (storage this)) ->
  filter (matches chatId msgId) (userMessages (storage this)) = u :: r ->
  deleteMessage chatId msgId this
    = Ok (true, removeUserMessage (JNum (updateId u)) this).
Proof.
  intros Husers Hu. unfold deleteMessage.
  rewrite (find_readable _ Husers), (find_filter_head _ _ _ _ Hu).
  reflexivity.
Qed.

Lemma deleteMessage_bot_hit this b r :
  readable (all_updates this) ->
  filter (matches chatId msgId) (userMessages (storage this)) = [] ->
  filter (matches chatId msgId) (botMessages (storage this)) = b :: r ->
  deleteMessage chatId msgId this
    = Ok (true, removeBotMessage (JNum (updateId b)) this).
Proof.
  intros Hall Hu Hb. apply Forall_app in Hall as [Husers Hbots].
  unfold deleteMessage.
  rewrite (find_readable _ Husers), (find_filter_nil _ _ Hu).
  cbn [bind].
  rewrite (find_readable _ Hbots), (find_filter_head _ _ _ _ Hb).
  reflexivity.
Qed.

Lemma deleteMessage_miss this :
  readable (all_updates this) ->
  filter (matches chatId msgId) (userMessages (storage this)) = [] ->
  filter (matches chatId msgId) (botMessages (storage this)) = [] ->
  deleteMessage chatId msgId this = Ok (false, this).
Proof.
  intros Hall Hu Hb. apply Forall_app in Hall as [Husers Hbots].
  unfold deleteMessage.
  rewrite (find_readable _ Husers), (find_filter_nil _ _ Hu).
  cbn [bind].
  rewrite (find_readable _ Hbots), (find_filter_nil _ _ Hb).
  reflexivity.
Qed.

End Search.

(** No number is [=== undefined], so no record matches. *)
Lemma isMessageToDelete_undefined chatId u b :
  isMessageToDelete chatId JUndefined u = Ok b -> b = false.
Proof.
  unfold isMessageToDelete.
  destruct (get_prop (message u) "chat") as [chat|e]; simpl;
    [|discriminate].
  destruct (get_prop chat "id") as [id|e]; simpl; [|discriminate].
  rewrite andb_false_r. congruence.
Qed.

(** A search that nothing can match visits every record. *)
Lemma find_undefined_visits_all chatId l r :
  find (isMessageToDelete chatId JUndefined) l = Ok r ->
  r = None /\ Forall (fun u => chat_readable u = true) l.
Proof.
  induction l as [|u l IH]; simpl.
  - intros H; inversion H; auto.
  - destruct (isMessageToDelete chatId JUndefined u) as [b|e] eqn:E; simpl;
      [|discriminate].
    pose proof (isMessageToDelete_undefined _ _ _ E); subst b.
    intros H; destruct (IH H) as [-> Hall]; split; [reflexivity|].
    constructor; [eapply isMessageToDelete_Ok; eassumption | exact Hall].
Qed.

Lemma readable_total this :
  Forall (fun u => chat_readable u = true) (all_updates this) ->
  deleteMessage_total this.
Proof.
  unfold all_updates; intros Hall chatId msgId.
  apply Forall_app in Hall as [Husers Hbots].
  unfold deleteMessage.
  rewrite (find_readable _ _ _ Husers); simpl.
  destruct (List.find _ _); [eauto|].
  rewrite (find_readable _ _ _ Hbots); simpl.
  destruct (List.find _ _); eauto.
Qed.

Lemma total_readable this :
  deleteMessage_total this ->
  Forall (fun u => chat_readable u = true) (all_updates this).
Proof.
  intros Htotal. destruct (Htotal JUndefined JUndefined) as (b & this' & H).
  unfold deleteMessage in H. unfold all_updates.
  destruct (find _ (userMessages _)) as [r|e] eqn:Eu; simpl in H;
    [|discriminate].
  apply find_undefined_visits_all in Eu as [-> Husers].
  destruct (find _ (botMessages _)) as [r|e] eqn:Eb; simpl in H;
    [|discriminate].
  apply find_undefined_visits_all in Eb as [-> Hbots].
  apply Forall_app; split; assumption.
Qed.

(** C1, as stated, fails: with one matching record in each log the first
    call returns [true] and removes the record of the user log; the record
    of the bot log is still there. *)
Lemma deleteMessage_keeps_bot_record :
  exists this',
    deleteMessage (JNum 1) (JNum 1) sample_pair = Ok (true, this') /\
    In sample_bot_update (botMessages (storage this')) /\
    userMessages (storage this') = [].
Proof.
  eexists. split; [vm_compute; reflexivity|].
  split; [left; reflexivity | reflexivity].
Qed.

(** C1, amended.  When every record can be read and exactly one record of
    each log matches, the user log is searched first: the first call
    removes the user record and leaves the bot log alone, the second
    removes the bot record and leaves the user log alone, and the third
    finds nothing and returns [false].  All three return without
    throwing. *)
Theorem deleteMessage_user_log_first :
  forall chatId msgId this u b,
    Forall (fun x => chat_readable x = true) (all_updates this) ->
    filter (matches chatId msgId) (userMessages (storage this)) = [u] ->
    filter (matches chatId msgId) (botMessages (storage this)) = [b] ->
    let s1 := removeUserMessage (JNum (updateId u)) this in
    let s2 := removeBotMessage (JNum (updateId b)) s1 in
    deleteMessage chatId msgId this = Ok (true, s1) /\
    ~ In u (userMessages (storage s1)) /\
    botMessages (storage s1) = botMessages (storage this) /\
    In b (botMessages (storage s1)) /\
    deleteMessage chatId msgId s1 = Ok (true, s2) /\
    ~ In b (botMessages (storage s2)) /\
    userMessages (storage s2) = userMessages (storage s1) /\
    deleteMessage chatId msgId s2 = Ok (false, s2).
Proof.
  intros chatId msgId this u b Hall Hu Hb s1 s2.
  unfold all_updates in Hall. apply Forall_app in Hall as [Husers Hbots].
  assert (Hu1 : filter (matches chatId msgId) (userMessages (storage s1))
                = []).
  { subst s1; simpl. rewrite filter_swap, Hu. simpl.
    rewrite Z.eqb_refl; reflexivity. }
  assert (Hb2 : filter (matches chatId msgId) (botMessages (storage s2))
                = []).
  { subst s2 s1; simpl. rewrite filter_swap, Hb. simpl.
    rewrite Z.eqb_refl; reflexivity. }
  assert (Husers1 : Forall (fun x => chat_readable x = true)
                      (userMessages (storage s1))).
  { subst s1; simpl. apply Forall_filter_keep; exact Husers. }
  assert (Hbots2 : Forall (fun x => chat_readable x = true)
                     (botMessages (storage s2))).
  { subst s2 s1; simpl. apply Forall_filter_keep; exact Hbots. }
  assert (Hinb : In b (botMessages (storage this))).
  { assert (H : In b (filter (matches chatId msgId)
                        (botMessages (storage this)))).
    { rewrite Hb; left; reflexivity. }
    apply filter_In in H; tauto. }
  assert (Hall1 : Forall (fun x => chat_readable x = true) (all_updates s1)).
  { apply Forall_app; split; assumption. }
  assert (Hall2 : Forall (fun x => chat_readable x = true) (all_updates s2)).
  { apply Forall_app; split; assumption. }
  repeat split.
  - eapply deleteMessage_user_hit; eassumption.
  - subst s1; simpl. intros Hin. apply filter_In in Hin as [_ Hk].
    simpl in Hk. rewrite Z.eqb_refl in Hk; discriminate.
  - exact Hinb.
  - eapply deleteMessage_bot_hit; eassumption.
  - subst s2 s1; simpl. intros Hin. apply filter_In in Hin as [_ Hk].
    simpl in Hk. rewrite Z.eqb_refl in Hk; discriminate.
  - apply deleteMessage_miss; assumption.
Qed.

Lemma deleteMessage_user_log_first_witness :
  let s1 := removeUserMessage (JNum 2) sample_pair in
  let s2 := removeBotMessage (JNum 1) s1 in
  deleteMessage (JNum 1) (JNum 1) sample_pair = Ok (true, s1) /\
  deleteMessage (JNum 1) (JNum 1) s1 = Ok (true, s2) /\
  deleteMessage (JNum 1) (JNum 1) s2 = Ok (false, s2).
Proof.
  pose proof (deleteMessage_user_log_first (JNum 1) (JNum 1) sample_pair
                sample_user_update sample_bot_update) as H.
  cbv zeta in H.
  destruct H as (H1 & _ & _ & _ & H2 & _ & _ & H3).
  - repeat constructor.
  - reflexivity.
  - reflexivity.
  - repeat split; assumption.
Defined.

(** C10, as stated, fails: the record of [sample_idless] has a [chat]
    without [id], and [deleteMessage] still returns a boolean for all
    arguments. *)
Lemma deleteMessage_total_without_id :
  deleteMessage_total sample_idless /\
  forallb has_chat_id (all_updates sample_idless) = false /\
  all_updates sample_idless <> [].
Proof.
  split; [|split; [reflexivity | discriminate]].
  apply readable_total. repeat constructor.
Qed.

(** C10, amended.  [deleteMessage] returns a boolean for all arguments
    exactly when, in every stored record, neither the payload nor its
    [chat] is [undefined] or [null]: the read of [message.chat.id] is not
    guarded.  An [id] inside [chat] is not needed, so a payload with a
    [chat] object that has an [id] is enough but more than is needed.  A
    record whose [chat] has no [id] reads [undefined] there: it matches
    when [chatId] is [undefined] itself and [messageId] is its own, and in
    no other case. *)
Theorem deleteMessage_total_iff_readable :
  forall this,
    (deleteMessage_total this <->
     Forall (fun u => chat_readable u = true) (all_updates this)) /\
    (forallb has_chat_id (all_updates this) = true ->
     deleteMessage_total this) /\
    (forall u chatId msgId,
       chat_id_of (message u) = Ok JUndefined ->
       (isMessageToDelete chatId msgId u = Ok true <->
        chatId = JUndefined /\ msgId = JNum (messageId u))).
Proof.
  intros this.
  split; [split; [apply total_readable | apply readable_total]|].
  split.
  - intros H. apply readable_total. rewrite forallb_forall in H.
    apply Forall_forall. intros u Hin. specialize (H u Hin).
    unfold has_chat_id in H. unfold chat_readable.
    destruct (message u) as [| | | | |fs]; try discriminate; simpl.
    destruct (assoc "chat" fs) as [[| | | | |cfs]|]; try discriminate; simpl.
    destruct (assoc "id" cfs); reflexivity.
  - intros u chatId msgId Hid.
    unfold isMessageToDelete. unfold chat_id_of in Hid.
    destruct (get_prop (message u) "chat") as [chat|e]; simpl in *;
      [|discriminate].
    rewrite Hid; simpl. split.
    + intros H. inversion H as [Hb]. apply andb_true_iff in Hb as [Hc Hm].
      split.
      * destruct chatId; simpl in Hc; try discriminate; reflexivity.
      * destruct msgId; simpl in Hm; try discriminate.
        apply Z.eqb_eq in Hm. congruence.
    + intros [-> ->]. simpl. rewrite Z.eqb_refl. reflexivity.
Qed.

Lemma deleteMessage_total_iff_readable_witness :
  (forallb has_chat_id (all_updates sample_dialogue) = true /\
   deleteMessage_total sample_dialogue) /\
  Forall (fun u => isMessageToDelete JUndefined (JNum 1) u = Ok true)
         (all_updates sample_idless).
Proof.
  split.
  - split; [reflexivity|].
    apply (proj1 (proj2 (deleteMessage_total_iff_readable sample_dialogue))).
    reflexivity.
  - apply Forall_cons; [|apply Forall_nil].
    pose proof (proj2 (proj2 (deleteMessage_total_iff_readable
                                sample_idless))) as H.
    apply H; [reflexivity | split; reflexivity].
Defined.

(** ** Identities along a sequence of calls *)

(** Case analysis on a call, and the two ways [addUserMessage] can go. *)
Ltac case_call c :=
  destruct c as [?millis ?msg ?token|?millis ?msg|?clock|?token|?id|?id
                 |?chatId ?msgId| |].

Ltac case_addUserMessage :=
  unfold addUserMessage;
  match goal with
  | |- context [get_prop ?m "botToken"] =>
      destruct (get_prop m "botToken") as [?token|?e]; simpl;
      [match goal with
       | |- context [truthy ?t] => destruct (truthy t); simpl
       end|]
  end.

(** A log that did not grow has nothing past its old length. *)
Ltac no_growth :=
  rewrite ?skipn_length_self, ?skipn_nil,
          ?skipn_short by (apply filter_length_le
                           || apply filter_clocked_length).

Lemma deleteMessage_cases chatId msgId this b this' :
  deleteMessage chatId msgId this = Ok (b, this') ->
  this' = this \/
  exists id, this' = removeUserMessage id this \/
             this' = removeBotMessage id this.
Proof.
  unfold deleteMessage.
  destruct (find _ (userMessages _)) as [[u|]|e]; simpl; try discriminate.
  - intros H; inversion H; right; eauto.
  - destruct (find _ (botMessages _)) as [[u|]|e]; simpl; try discriminate;
      intros H; inversion H; [right; eauto | left; reflexivity].
Qed.

(** A call either pushes nothing and leaves the counters alone, or pushes
    one record that carries the two counters and increments both. *)
Lemma call_pushed c this :
  (pushed c this = [] /\
   this_updateId (call c this) = this_updateId this /\
   this_messageId (call c this) = this_messageId this) \/
  (exists u, pushed c this = [u] /\
     updateId u = this_updateId this /\
     messageId u = this_messageId this /\
     this_updateId (call c this) = this_updateId this + 1 /\
     this_messageId (call c this) = this_messageId this + 1).
Proof.
  assert (Hpush : forall (l : list Update) a,
             skipn (List.length l) (l ++ [a]) = [a])
    by (intros; apply skipn_length_app).
  case_call c; unfold pushed, call.
  - right. eexists; simpl. rewrite Hpush. no_growth.
    repeat split; reflexivity.
  - case_addUserMessage.
    + right. eexists. rewrite Hpush. no_growth. repeat split; reflexivity.
    + left. no_growth. auto.
    + left. no_growth. auto.
  - left; simpl. no_growth. auto.
  - left. no_growth. auto.
  - left; simpl. no_growth. auto.
  - left; simpl. no_growth. auto.
  - left. destruct (deleteMessage chatId msgId this) as [[b this']|e] eqn:E.
    + apply deleteMessage_cases in E as [->|[id [->| ->]]]; simpl;
        no_growth; auto.
    + no_growth. auto.
  - left; simpl. no_growth. auto.
  - left. unfold stop. destruct (server this); simpl; no_growth; auto.
Qed.

(** What is in the logs after a call was there before or was pushed by
    the call. *)
Lemma call_logs c this u :
  In u (all_updates (call c this)) ->
  In u (all_updates this) \/ In u (pushed c this).
Proof.
  assert (Hpush : forall (l : list Update) a,
             skipn (List.length l) (l ++ [a]) = [a])
    by (intros; apply skipn_length_app).
  assert (Hfilter : forall f l l',
             In u (filter f l ++ l') -> In u (l ++ l')).
  { intros f l l' H. apply in_app_or in H as [H|H]; apply in_or_app;
      [left; apply filter_In in H; tauto | right; exact H]. }
  assert (Hfilter' : forall f l l',
             In u (l' ++ filter f l) -> In u (l' ++ l)).
  { intros f l l' H. apply in_app_or in H as [H|H]; apply in_or_app;
      [left; exact H | right; apply filter_In in H; tauto]. }
  case_call c; unfold pushed, call, all_updates.
  - simpl. rewrite Hpush. no_growth. intros H.
    rewrite !in_app_iff in *. simpl in *. tauto.
  - case_addUserMessage; auto.
    rewrite Hpush. no_growth. intros H.
    rewrite !in_app_iff in *. simpl in *. tauto.
  - simpl. intros H. left.
    rewrite in_app_iff in *.
    destruct H as [H|H]; apply filter_clocked_In in H; tauto.
  - auto.
  - simpl. intros H. left. eapply Hfilter; eassumption.
  - simpl. intros H. left. eapply Hfilter'; eassumption.
  - destruct (deleteMessage chatId msgId this) as [[b this']|e] eqn:E; auto.
    apply deleteMessage_cases in E as [->|[id [->| ->]]]; simpl; auto;
      intros H; left; [eapply Hfilter | eapply Hfilter']; eassumption.
  - simpl. tauto.
  - unfold stop. destruct (server this); simpl; tauto.
Qed.

Lemma run_counters_grow cs this :
  this_updateId this <= this_updateId (run cs this) /\
  this_messageId this <= this_messageId (run cs this).
Proof.
  revert this; induction cs as [|c cs IH]; intros this; simpl; [lia|].
  specialize (IH (call c this)).
  destruct (call_pushed c this) as [(_ & Hu & Hm)|(u & _ & _ & _ & Hu & Hm)];
    lia.
Qed.

(** Every record stored in the course of [cs] carries counter values
    between those at the start and those at the end. *)
Lemma stored_bounds cs this :
  Forall (fun u =>
            this_updateId this <= updateId u < this_updateId (run cs this) /\
            this_messageId this <= messageId u < this_messageId (run cs this))
         (stored cs this).
Proof.
  revert this; induction cs as [|c cs IH]; intros this; simpl;
    [constructor|].
  specialize (IH (call c this)).
  pose proof (run_counters_grow cs (call c this)) as [Gu Gm].
  destruct (call_pushed c this)
    as [(-> & Hu & Hm)|(u & -> & Hiu & Him & Hu & Hm)]; simpl.
  - eapply Forall_impl; [|exact IH]. simpl; intros v Hv; lia.
  - constructor; [lia|].
    eapply Forall_impl; [|exact IH]. simpl; intros v Hv; lia.
Qed.

Lemma stored_sorted cs this :
  StronglySorted Z.lt (map updateId (stored cs this)) /\
  StronglySorted Z.lt (map messageId (stored cs this)).
Proof.
  revert this; induction cs as [|c cs IH]; intros this; simpl;
    [split; constructor|].
  destruct (IH (call c this)) as [IHu IHm].
  pose proof (stored_bounds cs (call c this)) as Hb.
  destruct (call_pushed c this)
    as [(-> & Hu & Hm)|(u & -> & Hiu & Him & Hu & Hm)]; simpl;
    [split; assumption|].
  split; constructor; try assumption; apply Forall_map;
    (eapply Forall_impl; [|exact Hb]); simpl; intros v Hv; lia.
Qed.

Lemma StronglySorted_lt_NoDup l : StronglySorted Z.lt l -> NoDup l.
Proof.
  induction 1 as [|x l Hs IH Hx]; constructor; [|exact IH].
  intros Hin. rewrite Forall_forall in Hx. specialize (Hx x Hin). lia.
Qed.

Lemma run_logs cs this u :
  In u (all_updates (run cs this)) ->
  In u (all_updates this) \/ In u (stored cs this).
Proof.
  revert this; induction cs as [|c cs IH]; intros this; simpl; [auto|].
  intros H. apply IH in H as [H|H].
  - apply call_logs in H. rewrite in_app_iff. tauto.
  - rewrite in_app_iff. tauto.
Qed.

Lemma stored_equal_ids cs this :
  this_updateId this = this_messageId this ->
  Forall (fun u => updateId u = messageId u) (stored cs this) /\
  this_updateId (run cs this) = this_messageId (run cs this).
Proof.
  revert this; induction cs as [|c cs IH]; intros this Heq; simpl;
    [split; [constructor | exact Heq]|].
  destruct (call_pushed c this)
    as [(-> & Hu & Hm)|(u & -> & Hiu & Him & Hu & Hm)]; simpl.
  - apply IH; congruence.
  - destruct (IH (call c this)) as [Hall Hend]; [congruence|].
    split; [constructor; [congruence | exact Hall] | exact Hend].
Qed.

(** C3.  Along every sequence of calls from a new server (appends of both
    kinds interleaved with clean-ups, deletions and resets), the
    [updateId]s of the records stored, in the order in which they were
    stored, are strictly increasing, and so are the [messageId]s; so none
    is used twice. *)
Theorem identities_strictly_increasing :
  forall config cs,
    let ids := stored cs (constructor config) in
    StronglySorted Z.lt (map updateId ids) /\
    StronglySorted Z.lt (map messageId ids) /\
    NoDup (map updateId ids) /\
    NoDup (map messageId ids).
Proof.
  intros config cs ids.
  destruct (stored_sorted cs (constructor config)) as [Hu Hm].
  repeat split; auto using StronglySorted_lt_NoDup.
Qed.

(** C7.  [close] leaves both logs empty and both counters as they were;
    so every record stored after it, whatever happens in between, has an
    [updateId] greater than that of every record stored before it. *)
Theorem close_keeps_counters :
  forall config cs1 cs2,
    let before := run cs1 (constructor config) in
    let after := close before in
    userMessages (storage after) = [] /\
    botMessages (storage after) = [] /\
    this_updateId after = this_updateId before /\
    this_messageId after = this_messageId before /\
    Forall (fun v =>
              Forall (fun u => updateId u < updateId v)
                     (stored cs1 (constructor config)))
           (stored cs2 after).
Proof.
  intros config cs1 cs2 before after.
  repeat split; try reflexivity.
  pose proof (stored_bounds cs1 (constructor config)) as H1.
  pose proof (stored_bounds cs2 after) as H2.
  eapply Forall_impl; [|exact H2]. simpl; intros v [Hv _].
  eapply Forall_impl; [|exact H1]. simpl; intros u [Hu _].
  change (this_updateId after) with (this_updateId before) in Hv.
  subst before. lia.
Qed.

(** An append that returns pushes one record, which carries the two
    counters, and increments both by one; any other call pushes nothing
    and leaves the counters alone. *)
Lemma call_pushed_appended c this :
  if goes_through c this
  then exists u, pushed c this = [u] /\
         updateId u = this_updateId this /\
         messageId u = this_messageId this /\
         this_updateId (call c this) = this_updateId this + 1 /\
         this_messageId (call c this) = this_messageId this + 1
  else pushed c this = [] /\
       this_updateId (call c this) = this_updateId this /\
       this_messageId (call c this) = this_messageId this.
Proof.
  assert (Hpush : forall (l : list Update) a,
             skipn (List.length l) (l ++ [a]) = [a])
    by (intros; apply skipn_length_app).
  case_call c; unfold pushed, goes_through, call.
  - eexists; simpl. rewrite Hpush. no_growth. repeat split; reflexivity.
  - case_addUserMessage.
    + eexists. rewrite Hpush. no_growth. repeat split; reflexivity.
    + no_growth. auto.
    + no_growth. auto.
  - simpl. no_growth. auto.
  - no_growth. auto.
  - simpl. no_growth. auto.
  - simpl. no_growth. auto.
  - destruct (deleteMessage chatId msgId this) as [[b this']|e] eqn:E.
    + apply deleteMessage_cases in E as [->|[id [->| ->]]]; simpl;
        no_growth; auto.
    + no_growth. auto.
  - simpl. no_growth. auto.
  - unfold stop. destruct (server this); simpl; no_growth; auto.
Qed.

(** From counters at [n], the records stored carry [n], [n + 1], ... in
    both fields, one per append that returned, and the counters end at
    [n] plus the number of those appends. *)
Lemma stored_numbered cs this n :
  this_updateId this = Z.of_nat n ->
  this_messageId this = Z.of_nat n ->
  List.length (stored cs this) = appended cs this /\
  map updateId (stored cs this)
    = map Z.of_nat (seq n (appended cs this)) /\
  map messageId (stored cs this)
    = map Z.of_nat (seq n (appended cs this)) /\
  this_updateId (run cs this) = Z.of_nat (n + appended cs this) /\
  this_messageId (run cs this) = Z.of_nat (n + appended cs this).
Proof.
  revert this n; induction cs as [|c cs IH]; intros this n Hu Hm; simpl.
  - rewrite Nat.add_0_r. auto.
  - pose proof (call_pushed_appended c this) as Hc.
    destruct (goes_through c this).
    + destruct Hc as (u & -> & Eu & Em & Cu & Cm).
      destruct (IH (call c this) (S n)) as (Hl & Hmu & Hmm & Hru & Hrm);
        [lia | lia |].
      simpl. rewrite Hl, Hmu, Hmm, Hru, Hrm, Eu, Em, Hu, Hm.
      repeat split; try reflexivity; f_equal; lia.
    + destruct Hc as (-> & Cu & Cm).
      destruct (IH (call c this) n) as (Hl & Hmu & Hmm & Hru & Hrm);
        [congruence | congruence |].
      simpl. auto.
Qed.

(** C9.  The counters start at 1; each append that returns stores one
    record, gives it the two counters and increments both by one, and
    nothing else moves them.  So the records stored along a sequence of
    calls from a new server carry 1, 2, 3, ... as [updateId] and the same
    as [messageId], the counters end at 1 plus the number of appends, and
    every record stored, like every record in a log at the end, has
    [updateId] equal to [messageId]. *)
Theorem updateId_equals_messageId :
  forall config cs,
    let init := constructor config in
    let this := run cs init in
    let ids := stored cs init in
    this_updateId init = 1 /\
    this_messageId init = 1 /\
    List.length ids = appended cs init /\
    map updateId ids = map Z.of_nat (seq 1 (appended cs init)) /\
    map messageId ids = map Z.of_nat (seq 1 (appended cs init)) /\
    this_updateId this = 1 + Z.of_nat (appended cs init) /\
    this_messageId this = 1 + Z.of_nat (appended cs init) /\
    Forall (fun u => updateId u = messageId u) ids /\
    Forall (fun u => updateId u = messageId u) (all_updates this).
Proof.
  intros config cs init this ids.
  destruct (stored_equal_ids cs (constructor config) eq_refl)
    as [Hstored Hend].
  destruct (stored_numbered cs init 1 eq_refl eq_refl)
    as (Hl & Hmu & Hmm & Hru & Hrm).
  split; [reflexivity|]. split; [reflexivity|].
  split; [exact Hl|]. split; [exact Hmu|]. split; [exact Hmm|].
  split; [subst this; rewrite Hru; lia|].
  split; [subst this; rewrite Hrm; lia|].
  split; [exact Hstored|].
  apply Forall_forall. intros u Hin.
  apply run_logs in Hin as [Hin|Hin]; [destruct Hin|].
  rewrite Forall_forall in Hstored. auto.
Qed.

(** ** The clean-up daemon *)

Lemma cleanUpDaemon_stopped w :
  started (self w) = false -> cleanUpDaemon w = w.
Proof.
  intros H; unfold cleanUpDaemon; rewrite H; reflexivity.
Qed.

(** No storage method sets [started]. *)
Lemma call_started_false c this :
  started this = false -> started (call c this) = false.
Proof.
  intros H. case_call c; simpl; auto.
  - case_addUserMessage; auto.
  - destruct (deleteMessage chatId msgId this) as [[b this']|e] eqn:E; auto.
    apply deleteMessage_cases in E as [->|[id [->| ->]]]; simpl; auto.
  - unfold stop. destruct (server this); simpl; auto.
Qed.

Lemma remove_nth_length {A} i (l : list A) :
  (List.length (remove_nth i l) <= List.length l)%nat.
Proof.
  revert i; induction l as [|x l IH]; intros [|i]; simpl; auto.
  specialize (IH i); lia.
Qed.

(** While [started] is false a turn of the loop other than [Listening]
    sweeps nothing, registers no delay and leaves [started] false. *)
Lemma step_stopped e w w' :
  started (self w) = false ->
  is_Listening e = false ->
  step e w = Some w' ->
  started (self w') = false /\
  sweeps w' = sweeps w /\
  (List.length (timers w') <= List.length (timers w))%nat.
Proof.
  intros Hs He.
  destruct e as [d|i| | |c]; simpl in *; try discriminate.
  - destruct (0 <=? d); [|discriminate].
    intros H; inversion H; subst; simpl; auto.
  - destruct (nth_error (timers w) i) as [due|]; [|discriminate].
    destruct (due <=? now w); [|discriminate].
    rewrite cleanUpDaemon_stopped by exact Hs.
    intros H; inversion H; subst; simpl.
    auto using remove_nth_length.
  - destruct (server (self w)); [|discriminate].
    intros H; inversion H; subst; simpl.
    unfold stop. destruct (server (self w)); simpl; auto.
  - intros H; inversion H; subst; simpl.
    auto using call_started_false.
Qed.

Lemma steps_stopped es w w' :
  started (self w) = false ->
  forallb (fun e => negb (is_Listening e)) es = true ->
  steps es w = Some w' ->
  started (self w') = false /\
  sweeps w' = sweeps w /\
  (List.length (timers w') <= List.length (timers w))%nat.
Proof.
  revert w; induction es as [|e es IH]; intros w Hs Hes; simpl.
  - intros H; inversion H; subst; auto.
  - simpl in Hes. apply andb_true_iff in Hes as [He Hes].
    apply negb_true_iff in He.
    destruct (step e w) as [w1|] eqn:E; [|discriminate].
    destruct (step_stopped _ _ _ Hs He E) as (Hs1 & Hw1 & Ht1).
    intros H. destruct (IH w1 Hs1 Hes H) as (Hs' & Hw' & Ht').
    repeat split; [assumption | congruence | lia].
Qed.

(** C8, as stated, fails: [stop] does not cancel the pending delay, and
    the server can be started again.  On [sample_loop], after the
    [shutdown] callback of [stop] the [listen] callback of a new [start]
    sweeps, and the delay left from before the stop sweeps as well: two
    further sweeps, and the daemon goes on. *)
Lemma cleanUpDaemon_sweeps_after_restart :
  exists w2,
    steps [ShutDown; Listening; Fire 0] sample_loop = Some w2 /\
    sweeps sample_loop = [0] /\
    sweeps w2 = [0; 60000; 60000] /\
    started (self w2) = true /\
    List.length (timers w2) = 2%nat.
Proof.
  eexists. repeat split.
Qed.

(** C8, amended.  While [started] holds, a delay that expires makes the
    daemon sweep and register one new delay of [storeTimeout], the time to
    live that the sweep itself applies.  The flag is read first, before
    the sweep and the new delay, and [stop] cancels nothing: once the
    [shutdown] callback of [stop] has cleared the flag, and for as long as
    the server is not started again, a delay that expires sweeps nothing
    and registers nothing, so no further sweep runs. *)
Theorem cleanUpDaemon_stops_cooperatively :
  forall w,
    (started (self w) = true ->
     forall i due, nth_error (timers w) i = Some due -> due <= now w ->
       exists w', step (Fire i) w = Some w' /\
         self w' = cleanUp (fun _ => now w) (self w) /\
         sweeps w' = sweeps w ++ [now w] /\
         timers w'
           = remove_nth i (timers w) ++ [now w + storeTimeout (self w)]) /\
    (started (self w) = false ->
     forall i w', step (Fire i) w = Some w' ->
       self w' = self w /\
       sweeps w' = sweeps w /\
       timers w' = remove_nth i (timers w)) /\
    (forall w1, step ShutDown w = Some w1 ->
     forall es w2,
       forallb (fun e => negb (is_Listening e)) es = true ->
       steps es w1 = Some w2 ->
       started (self w2) = false /\
       sweeps w2 = sweeps w /\
       (List.length (timers w2) <= List.length (timers w))%nat).
Proof.
  intros w. split; [|split].
  - intros Hs i due Hi Hdue. simpl. rewrite Hi.
    apply Z.leb_le in Hdue. rewrite Hdue.
    unfold cleanUpDaemon; simpl. rewrite Hs.
    eexists; split; [reflexivity|]. simpl. auto.
  - intros Hs i w'. simpl.
    destruct (nth_error (timers w) i) as [due|]; [|discriminate].
    destruct (due <=? now w); [|discriminate].
    rewrite cleanUpDaemon_stopped by exact Hs.
    intros H; inversion H; subst; simpl. auto.
  - intros w1 H1 es w2 Hes H2. simpl in H1.
    destruct (server (self w)) eqn:Hsrv; [|discriminate].
    inversion H1; subst w1; clear H1.
    apply steps_stopped in H2 as (Hs2 & Hw2 & Ht2); [|simpl|exact Hes].
    + simpl in Hw2, Ht2. repeat split; assumption.
    + unfold stop. rewrite Hsrv. reflexivity.
Qed.

Lemma cleanUpDaemon_stops_cooperatively_witness :
  (exists w', step (Fire 0) sample_loop = Some w' /\
     sweeps w' = [0; 60000] /\ timers w' = [120000]) /\
  (exists w',
     step (Fire 0) sample_loop_stopped = Some w' /\
     sweeps w' = [0] /\ timers w' = []) /\
  (exists w2,
     steps [Elapse 60000; Fire 0; Elapse 60000] sample_loop_stopped
       = Some w2 /\
     sweeps w2 = [0]).
Proof.
  split; [|split].
  - destruct (proj1 (cleanUpDaemon_stops_cooperatively sample_loop)
                eq_refl 0%nat 60000 eq_refl ltac:(simpl; lia))
      as (w' & Hstep & _ & Hsweeps & Htimers).
    exists w'. repeat split; assumption.
  - eexists. split; [reflexivity|].
    destruct (proj1 (proj2 (cleanUpDaemon_stops_cooperatively
                              sample_loop_stopped))
                eq_refl 0%nat _ eq_refl) as (_ & Hsweeps & Htimers).
    split; assumption.
  - eexists. split; [reflexivity|].
    destruct (proj2 (proj2 (cleanUpDaemon_stops_cooperatively sample_loop))
                sample_loop_stopped eq_refl
                [Elapse 60000; Fire 0; Elapse 60000] _ eq_refl eq_refl)
      as (_ & Hsweeps & _).
    exact Hsweeps.
Defined.

(** ** What the calls do to the logs *)

Lemma subseq_refl {A} (l : list A) : subseq l l.
Proof.
  induction l; constructor; assumption.
Qed.

Lemma subseq_nil_l {A} (l : list A) : subseq [] l.
Proof.
  induction l; constructor; assumption.
Qed.

Lemma subseq_filter {A} (f : A -> bool) l : subseq (filter f l) l.
Proof.
  induction l as [|x l IH]; simpl; [constructor|].
  destruct (f x); constructor; exact IH.
Qed.

Lemma subseq_filter_clocked f clock k l :
  subseq (filter_clocked f clock k l) l.
Proof.
  revert k; induction l as [|x l IH]; intros k; simpl; [constructor|].
  destruct (f (clock k) x); constructor; apply IH.
Qed.

Lemma subseq_In {A} (l' l : list A) x : subseq l' l -> In x l' -> In x l.
Proof.
  induction 1 as [|y l' l H IH|y l' l H IH]; simpl; intuition.
Qed.

Lemma subseq_Forall {A} (P : A -> Prop) l' l :
  subseq l' l -> Forall P l -> Forall P l'.
Proof.
  intros Hs Hl. apply Forall_forall. intros x Hx.
  rewrite Forall_forall in Hl. eauto using subseq_In.
Qed.

Lemma subseq_map {A B} (g : A -> B) l' l :
  subseq l' l -> subseq (map g l') (map g l).
Proof.
  induction 1; simpl; constructor; assumption.
Qed.

Lemma subseq_length {A} (l' l : list A) :
  subseq l' l -> (List.length l' <= List.length l)%nat.
Proof.
  induction 1; simpl; lia.
Qed.

Lemma subseq_sorted l' l :
  subseq l' l -> StronglySorted Z.lt l -> StronglySorted Z.lt l'.
Proof.
  induction 1 as [|y l' l H IH|y l' l H IH]; intros Hs.
  - constructor.
  - inversion Hs; subst; auto.
  - inversion Hs; subst. constructor; [auto|].
    eapply subseq_Forall; eassumption.
Qed.

Lemma sorted_snoc l a :
  StronglySorted Z.lt l -> Forall (fun x => x < a) l ->
  StronglySorted Z.lt (l ++ [a]).
Proof.
  induction 1 as [|x l Hs IH Hx]; intros Ha; simpl.
  - repeat constructor.
  - inversion Ha; subst. constructor; [auto|].
    apply Forall_app; split; [exact Hx | repeat constructor; assumption].
Qed.

(** A call either only takes records out of the logs and leaves the
    counters alone, or pushes one record, which carries the counters, on
    one log and increments both counters. *)
Lemma call_shape c this :
  let st := storage this in
  let st' := storage (call c this) in
  (subseq (userMessages st') (userMessages st) /\
   subseq (botMessages st') (botMessages st) /\
   this_updateId (call c this) = this_updateId this /\
   this_messageId (call c this) = this_messageId this) \/
  (exists u,
     updateId u = this_updateId this /\
     messageId u = this_messageId this /\
     this_updateId (call c this) = this_updateId this + 1 /\
     this_messageId (call c this) = this_messageId this + 1 /\
     is_append c = true /\
     ((userMessages st' = userMessages st ++ [u] /\
       botMessages st' = botMessages st) \/
      (botMessages st' = botMessages st ++ [u] /\
       userMessages st' = userMessages st))).
Proof.
  cbv zeta. case_call c; unfold call.
  - right. exists (new_update millis token msg this); simpl.
    repeat split. right. split; reflexivity.
  - case_addUserMessage.
    + right. exists (new_update millis token msg this); simpl.
      repeat split. left. split; reflexivity.
    + left. auto using subseq_refl.
    + left. auto using subseq_refl.
  - left; simpl. auto using subseq_refl, subseq_filter_clocked.
  - left. auto using subseq_refl.
  - left; simpl. auto using subseq_refl, subseq_filter.
  - left; simpl. auto using subseq_refl, subseq_filter.
  - left. destruct (deleteMessage chatId msgId this) as [[b this']|e] eqn:E.
    + apply deleteMessage_cases in E as [->|[id [->| ->]]]; simpl;
        auto using subseq_refl, subseq_filter.
    + auto using subseq_refl.
  - left; simpl. auto using subseq_nil_l.
  - left. unfold stop. destruct (server this); simpl;
      auto using subseq_refl, subseq_nil_l.
Qed.

Lemma constructor_invariant config : store_invariant (constructor config).
Proof.
  unfold store_invariant, all_updates; simpl.
  repeat split; constructor.
Qed.

Lemma call_invariant c this :
  store_invariant this -> store_invariant (call c this).
Proof.
  unfold store_invariant, all_updates.
  intros (Hc & Hall & Hsu & Hsb & Hd).
  apply Forall_app in Hall as [Hau Hab].
  destruct (call_shape c this) as
    [(Su & Sb & Eu & Em)
    |(u & Hu & Hm & Eu & Em & _ & [[-> ->]|[-> ->]])].
  - rewrite Eu, Em. split; [exact Hc|]. split; [|split; [|split]].
    + apply Forall_app; split; eapply subseq_Forall; eassumption.
    + eapply subseq_sorted; [apply subseq_map|]; eassumption.
    + eapply subseq_sorted; [apply subseq_map|]; eassumption.
    + eapply subseq_Forall; [eassumption|].
      eapply Forall_impl; [|exact Hd]. simpl; intros x Hx.
      eapply subseq_Forall; eassumption.
  - rewrite Eu, Em. split; [lia|]. split; [|split; [|split]].
    + rewrite <- app_assoc. apply Forall_app; split;
        [|apply Forall_app; split].
      * eapply Forall_impl; [|exact Hau]. simpl; intros; lia.
      * repeat constructor; lia.
      * eapply Forall_impl; [|exact Hab]. simpl; intros; lia.
    + rewrite map_app. apply sorted_snoc; [exact Hsu|].
      apply Forall_map. eapply Forall_impl; [|exact Hau].
      simpl; intros; lia.
    + exact Hsb.
    + apply Forall_app; split; [exact Hd|].
      repeat constructor.
      eapply Forall_impl; [|exact Hab]. simpl; intros; lia.
  - rewrite Eu, Em. split; [lia|]. split; [|split; [|split]].
    + rewrite app_assoc. apply Forall_app; split;
        [apply Forall_app; split|].
      * eapply Forall_impl; [|exact Hau]. simpl; intros; lia.
      * eapply Forall_impl; [|exact Hab]. simpl; intros; lia.
      * repeat constructor; lia.
    + exact Hsu.
    + rewrite map_app. apply sorted_snoc; [exact Hsb|].
      apply Forall_map. eapply Forall_impl; [|exact Hab].
      simpl; intros; lia.
    + apply Forall_forall. intros x Hx.
      apply Forall_app; split.
      * rewrite Forall_forall in Hd. auto.
      * repeat constructor. rewrite Forall_forall in Hau.
        specialize (Hau x Hx). lia.
Qed.

Lemma run_invariant cs this :
  store_invariant this -> store_invariant (run cs this).
Proof.
  revert this; induction cs as [|c cs IH]; intros this H; simpl;
    auto using call_invariant.
Qed.

(** X1.  A server that is only used through its methods keeps the
    invariant of the store: the counters agree, every record in a log has
    [updateId = messageId] below the counter, each log is in strictly
    increasing order of [updateId], and no [updateId] is in both logs. *)
Theorem store_invariant_reachable :
  forall config cs, store_invariant (run cs (constructor config)).
Proof.
  intros config cs. apply run_invariant, constructor_invariant.
Qed.

(** X2.  Only the two appends add records or move the counters: any other
    call leaves both counters as they are and each log a subsequence of
    what it was; and whatever the call, a counter stays or goes up by
    one. *)
Theorem only_appends_grow :
  forall c this,
    (this_updateId (call c this) = this_updateId this \/
     this_updateId (call c this) = this_updateId this + 1) /\
    (is_append c = false ->
     this_updateId (call c this) = this_updateId this /\
     this_messageId (call c this) = this_messageId this /\
     subseq (userMessages (storage (call c this)))
            (userMessages (storage this)) /\
     subseq (botMessages (storage (call c this)))
            (botMessages (storage this))).
Proof.
  intros c this.
  destruct (call_shape c this) as
    [(Su & Sb & Eu & Em)|(u & _ & _ & Eu & _ & Ha & _)].
  - split; [left; exact Eu | intros _; auto].
  - split; [right; exact Eu | intros H; congruence].
Qed.

Lemma only_appends_grow_witness :
  let c := CallDeleteMessage (JNum 1) (JNum 1) in
  this_updateId (call c sample_dialogue) = this_updateId sample_dialogue /\
  this_messageId (call c sample_dialogue) = this_messageId sample_dialogue /\
  subseq (userMessages (storage (call c sample_dialogue)))
         (userMessages (storage sample_dialogue)) /\
  subseq (botMessages (storage (call c sample_dialogue)))
         (botMessages (storage sample_dialogue)).
Proof.
  apply (proj2 (only_appends_grow (CallDeleteMessage (JNum 1) (JNum 1))
                  sample_dialogue)).
  reflexivity.
Defined.

(** ** Removing by [updateId] *)

Lemma filter_idempotent {A} (f : A -> bool) l :
  filter f (filter f l) = filter f l.
Proof.
  induction l as [|x l IH]; simpl; [reflexivity|].
  destruct (f x) eqn:E; simpl; rewrite ?E, IH; reflexivity.
Qed.

Lemma filter_all {A} (f : A -> bool) l :
  Forall (fun x => f x = true) l -> filter f l = l.
Proof.
  induction 1 as [|x l Hx Hl IH]; simpl; [reflexivity|].
  rewrite Hx, IH; reflexivity.
Qed.

(** X3.  [removeUserMessage] and [removeBotMessage] are idempotent, and
    with an [updateId] that no record of the log carries (any value that
    is not a number, for one) they change nothing at all. *)
Theorem remove_by_updateId_idempotent :
  forall id this,
    removeUserMessage id (removeUserMessage id this)
      = removeUserMessage id this /\
    removeBotMessage id (removeBotMessage id this)
      = removeBotMessage id this /\
    (Forall (fun u => strict_eq (JNum (updateId u)) id = false)
            (userMessages (storage this)) ->
     removeUserMessage id this = this) /\
    (Forall (fun u => strict_eq (JNum (updateId u)) id = false)
            (botMessages (storage this)) ->
     removeBotMessage id this = this).
Proof.
  intros id this. repeat split.
  - unfold removeUserMessage; simpl. rewrite filter_idempotent. reflexivity.
  - unfold removeBotMessage; simpl. rewrite filter_idempotent. reflexivity.
  - intros H. unfold removeUserMessage. rewrite filter_all.
    + destruct this as [? ? ? [? ?] ? ? ?]; reflexivity.
    + eapply Forall_impl; [|exact H]. simpl; intros u ->; reflexivity.
  - intros H. unfold removeBotMessage. rewrite filter_all.
    + destruct this as [? ? ? [? ?] ? ? ?]; reflexivity.
    + eapply Forall_impl; [|exact H]. simpl; intros u ->; reflexivity.
Qed.

Lemma remove_by_updateId_idempotent_witness :
  removeUserMessage (JStr "1") sample_dialogue = sample_dialogue /\
  removeBotMessage (JNum 1) sample_dialogue = sample_dialogue.
Proof.
  destruct (remove_by_updateId_idempotent (JStr "1") sample_dialogue)
    as (_ & _ & Hu & _).
  destruct (remove_by_updateId_idempotent (JNum 1) sample_dialogue)
    as (_ & _ & _ & Hb).
  split; [apply Hu | apply Hb]; repeat constructor.
Defined.

(** ** Deleting from a server that is used through its methods *)

Lemma find_Some p l u :
  find p l = Ok (Some u) -> In u l /\ p u = Ok true.
Proof.
  induction l as [|x l IH]; simpl; [discriminate|].
  destruct (p x) as [[|]|e] eqn:E; simpl; try discriminate.
  - intros H; inversion H; subst; auto.
  - intros H; destruct (IH H); auto.
Qed.

Lemma filter_none {A} (f : A -> bool) l :
  Forall (fun x => f x = false) l -> filter f l = [].
Proof.
  induction 1 as [|x l Hx Hl IH]; simpl; [reflexivity|].
  rewrite Hx; exact IH.
Qed.

Lemma strict_eq_JNum n v : strict_eq (JNum n) v = true -> v = JNum n.
Proof.
  destruct v; simpl; try discriminate.
  intros H; apply Z.eqb_eq in H; congruence.
Qed.

Lemma matches_messageId chatId msgId u :
  matches chatId msgId u = true -> msgId = JNum (messageId u).
Proof.
  unfold matches, isMessageToDelete.
  destruct (get_prop (message u) "chat") as [chat|e]; simpl;
    [|discriminate].
  destruct (get_prop chat "id") as [id|e]; simpl; [|discriminate].
  intros H; apply andb_true_iff in H as [_ H].
  apply strict_eq_JNum in H; exact H.
Qed.

Lemma isMessageToDelete_matches chatId msgId u :
  isMessageToDelete chatId msgId u = Ok true -> matches chatId msgId u = true.
Proof.
  unfold matches; intros ->; reflexivity.
Qed.

Lemma matches_chat_id chatId msgId u c :
  chat_id_of (message u) = Ok c ->
  matches chatId msgId u
    = strict_eq c chatId && strict_eq (JNum (messageId u)) msgId.
Proof.
  unfold matches, isMessageToDelete, chat_id_of.
  destruct (get_prop (message u) "chat") as [chat|e]; simpl;
    [|discriminate].
  intros ->; reflexivity.
Qed.

Lemma chat_id_readable u c :
  chat_id_of (message u) = Ok c -> chat_readable u = true.
Proof.
  unfold chat_readable, chat_id_of.
  destruct (get_prop (message u) "chat") as [chat|e]; simpl;
    [|discriminate].
  intros ->; reflexivity.
Qed.

(** In a strictly increasing log one record has a given [updateId]. *)
Lemma sorted_remove_one l u :
  StronglySorted Z.lt (map updateId l) -> In u l ->
  (List.length
     (filter (fun x => negb (strict_eq (JNum (updateId x))
                                       (JNum (updateId u)))) l) + 1
   = List.length l)%nat.
Proof.
  induction l as [|x l IH]; simpl; [contradiction|].
  intros Hs Hin. inversion Hs as [|? ? Hs' Hx]; subst.
  destruct Hin as [->|Hin].
  - rewrite Z.eqb_refl; simpl. rewrite filter_all; [lia|].
    rewrite Forall_map in Hx. eapply Forall_impl; [|exact Hx].
    simpl; intros y Hy. apply negb_true_iff, Z.eqb_neq. lia.
  - assert (updateId x < updateId u).
    { rewrite Forall_map, Forall_forall in Hx. auto. }
    replace (updateId x =? updateId u) with false
      by (symmetry; apply Z.eqb_neq; lia).
    simpl. specialize (IH Hs' Hin). simpl in IH. lia.
Qed.

(** X4.  On a server that is only used through its methods,
    [deleteMessage] that returns [true] has taken exactly one record out
    of the two logs; when it returns [false] the server is as it was.  The
    counters are not moved either way. *)
Theorem deleteMessage_removes_one :
  forall config cs chatId msgId b s,
    let this := run cs (constructor config) in
    deleteMessage chatId msgId this = Ok (b, s) ->
    this_updateId s = this_updateId this /\
    this_messageId s = this_messageId this /\
    if b
    then (List.length (all_updates s) + 1
          = List.length (all_updates this))%nat
    else s = this.
Proof.
  intros config cs chatId msgId b s this H.
  pose proof (run_invariant cs _ (constructor_invariant config))
    as (_ & _ & Hsu & Hsb & _).
  fold this in Hsu, Hsb.
  unfold deleteMessage in H.
  destruct (find _ (userMessages _)) as [[u|]|e] eqn:Eu; simpl in H;
    try discriminate.
  - inversion H; subst b s; clear H. apply find_Some in Eu as [Hin _].
    repeat split. unfold all_updates; simpl. rewrite !length_app.
    pose proof (sorted_remove_one _ _ Hsu Hin). simpl in *. lia.
  - destruct (find _ (botMessages _)) as [[u|]|e] eqn:Eb; simpl in H;
      try discriminate; inversion H; subst b s; clear H.
    + apply find_Some in Eb as [Hin _].
      repeat split. unfold all_updates; simpl. rewrite !length_app.
      pose proof (sorted_remove_one _ _ Hsb Hin). simpl in *. lia.
    + repeat split.
Qed.

Lemma deleteMessage_removes_one_witness :
  exists s,
    deleteMessage (JNum 1) (JNum 2) sample_dialogue = Ok (true, s) /\
    (List.length (all_updates s) + 1
     = List.length (all_updates sample_dialogue))%nat.
Proof.
  eexists. split; [reflexivity|].
  apply (deleteMessage_removes_one None
           [CallAddUserMessage 10000 (sample_payload 1 10);
            CallAddBotMessage 20000 (sample_payload 1 20) (JStr "token")]
           (JNum 1) (JNum 2) true _ eq_refl).
Defined.

(** Under the invariant two records with one [messageId] have one
    [updateId]. *)
Lemma invariant_same_message this u v :
  store_invariant this ->
  In u (all_updates this) -> In v (all_updates this) ->
  messageId u = messageId v -> updateId u = updateId v.
Proof.
  intros (_ & Hall & _) Hu Hv E. rewrite Forall_forall in Hall.
  destruct (Hall u Hu) as [Eu _]. destruct (Hall v Hv) as [Ev _].
  congruence.
Qed.

Lemma no_match_left chatId msgId (keep : Update -> bool) l u :
  matches chatId msgId u = true ->
  (forall x, In x l -> keep x = true -> messageId x <> messageId u) ->
  filter (matches chatId msgId) (filter keep l) = [].
Proof.
  intros Hu Hl. apply filter_none, Forall_forall. intros x Hx.
  apply filter_In in Hx as [Hin Hk].
  destruct (matches chatId msgId x) eqn:E; [|reflexivity].
  apply matches_messageId in E. apply matches_messageId in Hu.
  specialize (Hl x Hin Hk). congruence.
Qed.

(** X5.  On a server that is only used through its methods and whose
    records can all be read, a [deleteMessage] that returned [true]
    returns [false] when it is repeated, and the repetition changes
    nothing. *)
Theorem deleteMessage_twice :
  forall config cs chatId msgId s,
    let this := run cs (constructor config) in
    Forall (fun u => chat_readable u = true) (all_updates this) ->
    deleteMessage chatId msgId this = Ok (true, s) ->
    deleteMessage chatId msgId s = Ok (false, s).
Proof.
  intros config cs chatId msgId s this Hread H.
  pose proof (run_invariant cs _ (constructor_invariant config)) as Hinv.
  fold this in Hinv.
  pose proof Hinv as (_ & _ & _ & _ & Hdis).
  pose proof Hread as Hread'. unfold all_updates in Hread'.
  apply Forall_app in Hread' as [Husers Hbots].
  assert (Hneq : forall id x, negb (strict_eq (JNum (updateId x)) (JNum id))
                              = true -> updateId x <> id).
  { intros id x Hk. simpl in Hk. apply negb_true_iff, Z.eqb_neq in Hk.
    exact Hk. }
  unfold deleteMessage in H.
  destruct (find _ (userMessages _)) as [[u|]|e] eqn:Eu; simpl in H;
    try discriminate.
  - inversion H; subst s; clear H.
    apply find_Some in Eu as [Hin Hm]. apply isMessageToDelete_matches in Hm.
    apply deleteMessage_miss.
    + unfold all_updates; simpl. apply Forall_app; split;
        [apply Forall_filter_keep|]; assumption.
    + simpl. apply (no_match_left _ _ _ _ u Hm). intros x Hx Hk E.
      apply (Hneq _ _ Hk).
      apply (invariant_same_message this); auto;
        unfold all_updates; apply in_or_app; auto.
    + simpl. apply filter_none, Forall_forall. intros x Hx.
      destruct (matches chatId msgId x) eqn:E; [|reflexivity].
      apply matches_messageId in E. apply matches_messageId in Hm.
      rewrite Forall_forall in Hdis. specialize (Hdis u Hin).
      rewrite Forall_forall in Hdis. exfalso. apply (Hdis x Hx).
      apply (invariant_same_message this); auto;
        [| |congruence]; unfold all_updates; apply in_or_app; auto.
  - destruct (find _ (botMessages _)) as [[u|]|e] eqn:Eb; simpl in H;
      try discriminate; inversion H; subst s; clear H.
    apply find_Some in Eb as [Hin Hm]. apply isMessageToDelete_matches in Hm.
    rewrite (find_readable _ _ _ Husers) in Eu.
    inversion Eu as [Enone]; clear Eu.
    apply deleteMessage_miss.
    + unfold all_updates; simpl. apply Forall_app; split;
        [|apply Forall_filter_keep]; assumption.
    + simpl. apply filter_none, Forall_forall. intros x Hx.
      apply (find_none _ _ Enone x Hx).
    + simpl. apply (no_match_left _ _ _ _ u Hm). intros x Hx Hk E.
      apply (Hneq _ _ Hk).
      apply (invariant_same_message this); auto;
        unfold all_updates; apply in_or_app; auto.
Qed.

Lemma deleteMessage_twice_witness :
  exists s,
    deleteMessage (JNum 1) (JNum 2) sample_dialogue = Ok (true, s) /\
    deleteMessage (JNum 1) (JNum 2) s = Ok (false, s).
Proof.
  eexists. split; [reflexivity|].
  apply (deleteMessage_twice None
           [CallAddUserMessage 10000 (sample_payload 1 10);
            CallAddBotMessage 20000 (sample_payload 1 20) (JStr "token")]
           (JNum 1) (JNum 2)).
  - repeat constructor.
  - reflexivity.
Defined.

(** Under the invariant no stored record has the [messageId] that the
    next append will give. *)
Lemma invariant_no_match_next chatId this l :
  store_invariant this ->
  (forall x, In x l -> In x (all_updates this)) ->
  filter (matches chatId (JNum (this_messageId this))) l = [].
Proof.
  intros (Hc & Hall & _) Hl. apply filter_none, Forall_forall. intros x Hx.
  destruct (matches _ _ x) eqn:E; [|reflexivity].
  apply matches_messageId in E. rewrite Forall_forall in Hall.
  destruct (Hall x (Hl x Hx)) as [E1 E2]. inversion E. lia.
Qed.

Lemma invariant_keep_old this l :
  store_invariant this ->
  (forall x, In x l -> In x (all_updates this)) ->
  filter (fun x => negb (strict_eq (JNum (updateId x))
                                   (JNum (this_updateId this)))) l = l.
Proof.
  intros (_ & Hall & _) Hl. apply filter_all, Forall_forall. intros x Hx.
  rewrite Forall_forall in Hall. destruct (Hall x (Hl x Hx)) as [_ E].
  simpl. apply negb_true_iff, Z.eqb_neq. lia.
Qed.

Lemma append_then_delete_inv this millis msg token c :
  store_invariant this ->
  Forall (fun u => chat_readable u = true) (all_updates this) ->
  chat_id_of msg = Ok c ->
  strict_eq c c = true ->
  (exists s,
     deleteMessage c (JNum (this_messageId this))
                   (addBotMessage millis msg token this) = Ok (true, s) /\
     storage s = storage this) /\
  (forall this',
     addUserMessage millis msg this = Ok this' ->
     exists s,
       deleteMessage c (JNum (this_messageId this)) this' = Ok (true, s) /\
       storage s = storage this).
Proof.
  intros Hinv Hread Hc Hcc.
  pose proof Hinv as (Hctr & _).
  pose proof Hread as Hread'. unfold all_updates in Hread'.
  apply Forall_app in Hread' as [Husers Hbots].
  assert (Hu_in : forall x, In x (userMessages (storage this)) ->
                            In x (all_updates this))
    by (intros; unfold all_updates; apply in_or_app; auto).
  assert (Hb_in : forall x, In x (botMessages (storage this)) ->
                            In x (all_updates this))
    by (intros; unfold all_updates; apply in_or_app; auto).
  assert (Hnew : forall tok,
            let add := new_update millis tok msg this in
            chat_readable add = true /\
            matches c (JNum (this_messageId this)) add = true /\
            negb (strict_eq (JNum (updateId add))
                            (JNum (this_updateId this))) = false).
  { intros tok add. split; [|split].
    - apply (chat_id_readable add c); exact Hc.
    - rewrite (matches_chat_id _ _ add c Hc). simpl.
      rewrite Hcc, Z.eqb_refl. reflexivity.
    - simpl. rewrite Z.eqb_refl. reflexivity. }
  split.
  - destruct (Hnew token) as (Hr & Hm & Hk).
    eexists. split.
    + eapply deleteMessage_bot_hit.
      * unfold all_updates; simpl. apply Forall_app; split; [exact Husers|].
        apply Forall_app; split; [exact Hbots | repeat constructor; exact Hr].
      * simpl. apply invariant_no_match_next; assumption.
      * simpl. rewrite filter_app.
        rewrite (invariant_no_match_next _ _ _ Hinv Hb_in). simpl.
        rewrite Hm. reflexivity.
    + simpl. rewrite filter_app. simpl in Hk. simpl. rewrite Hk.
      rewrite app_nil_r.
      pose proof (invariant_keep_old _ _ Hinv Hb_in) as Hold.
      simpl in Hold. rewrite Hold. destruct (storage this); reflexivity.
  - intros this'. unfold addUserMessage.
    destruct (get_prop msg "botToken") as [tok|e]; simpl; [|discriminate].
    destruct (truthy tok); [|discriminate].
    intros H; inversion H; subst this'; clear H.
    destruct (Hnew tok) as (Hr & Hm & Hk).
    eexists. split.
    + eapply deleteMessage_user_hit.
      * simpl. apply Forall_app; split;
          [exact Husers | repeat constructor; exact Hr].
      * simpl. rewrite filter_app.
        rewrite (invariant_no_match_next _ _ _ Hinv Hu_in). simpl.
        rewrite Hm. reflexivity.
    + simpl. rewrite filter_app. simpl in Hk. simpl. rewrite Hk.
      rewrite app_nil_r.
      pose proof (invariant_keep_old _ _ Hinv Hu_in) as Hold.
      simpl in Hold. rewrite Hold. destruct (storage this); reflexivity.
Qed.

(** X6.  Append, then delete by the chat and the [messageId] just given:
    on a server that is only used through its methods and whose records
    can all be read, [deleteMessage] returns [true] and the two logs are
    what they were before the append, for a bot message as for a user
    message.  The chat identity must be a value equal to itself under
    [===] (any primitive). *)
Theorem append_then_delete :
  forall config cs millis msg token c,
    let this := run cs (constructor config) in
    Forall (fun u => chat_readable u = true) (all_updates this) ->
    chat_id_of msg = Ok c ->
    strict_eq c c = true ->
    (exists s,
       deleteMessage c (JNum (this_messageId this))
                     (addBotMessage millis msg token this) = Ok (true, s) /\
       storage s = storage this) /\
    (forall this',
       addUserMessage millis msg this = Ok this' ->
       exists s,
         deleteMessage c (JNum (this_messageId this)) this' = Ok (true, s) /\
         storage s = storage this).
Proof.
  intros config cs millis msg token c this Hread Hc Hcc.
  apply append_then_delete_inv; try assumption.
  apply run_invariant, constructor_invariant.
Qed.

Lemma append_then_delete_witness :
  exists s,
    deleteMessage (JNum 7) (JNum 3)
      (addBotMessage 30000 (sample_payload 7 30) (JStr "token")
                     sample_dialogue) = Ok (true, s) /\
    storage s = storage sample_dialogue.
Proof.
  assert (Hread : Forall (fun u => chat_readable u = true)
                         (all_updates sample_dialogue))
    by (repeat constructor).
  exact (proj1 (append_then_delete None
           [CallAddUserMessage 10000 (sample_payload 1 10);
            CallAddBotMessage 20000 (sample_payload 1 20) (JStr "token")]
           30000 (sample_payload 7 30) (JStr "token") (JNum 7)
           Hread eq_refl eq_refl)).
Defined.

(** ** More on eviction *)

Lemma filter_clocked_keeps f clock k l u :
  In u l -> (forall j, f (clock j) u = true) ->
  In u (filter_clocked f clock k l).
Proof.
  revert k; induction l as [|x l IH]; intros k; simpl; [contradiction|].
  intros [->|Hin] Hf.
  - rewrite Hf. left; reflexivity.
  - destruct (f (clock k) x); [right|]; apply IH; assumption.
Qed.

Lemma filter_clocked_kept f clock k l u :
  In u (filter_clocked f clock k l) ->
  In u l /\ exists j, f (clock j) u = true.
Proof.
  revert k; induction l as [|x l IH]; intros k; simpl; [contradiction|].
  destruct (f (clock k) x) eqn:E; simpl.
  - intros [->|Hin]; [split; [left; reflexivity | eauto]|].
    destruct (IH _ Hin); auto.
  - intros Hin. destruct (IH _ Hin); auto.
Qed.

Lemma filter_absorbs {A} (f g : A -> bool) l :
  (forall x, g x = true -> f x = true) ->
  filter g (filter f l) = filter g l.
Proof.
  intros H; induction l as [|x l IH]; simpl; [reflexivity|].
  destruct (f x) eqn:Ef; simpl; rewrite IH; [reflexivity|].
  destruct (g x) eqn:Eg; [|reflexivity].
  rewrite (H x Eg) in Ef; discriminate.
Qed.

(** X7.  [messageFilter] reads the clock for every record.  When the
    readings of a sweep lie between [t1] and [t2], the sweep keeps every
    record with [time > t2 - storeTimeout], and whatever it keeps was in
    the log and has [time > t1 - storeTimeout]; so for both logs. *)
Theorem cleanUp_moving_clock :
  forall t1 t2 clock this,
    (forall k, t1 <= clock k <= t2) ->
    let ttl := storeTimeout this in
    let this' := cleanUp clock this in
    forall u,
      (In u (userMessages (storage this)) -> t2 - ttl < time u ->
       In u (userMessages (storage this'))) /\
      (In u (userMessages (storage this')) ->
       In u (userMessages (storage this)) /\ t1 - ttl < time u) /\
      (In u (botMessages (storage this)) -> t2 - ttl < time u ->
       In u (botMessages (storage this'))) /\
      (In u (botMessages (storage this')) ->
       In u (botMessages (storage this)) /\ t1 - ttl < time u).
Proof.
  intros t1 t2 clock this Hclock ttl this' u.
  assert (Hkeep : forall l k, In u l -> t2 - ttl < time u ->
            In u (filter_clocked (messageFilter this) clock k l)).
  { intros l k Hin Ht. apply filter_clocked_keeps; [exact Hin|].
    intros j. unfold messageFilter. apply Z.ltb_lt.
    specialize (Hclock j). subst ttl. lia. }
  assert (Hkept : forall l k,
            In u (filter_clocked (messageFilter this) clock k l) ->
            In u l /\ t1 - ttl < time u).
  { intros l k Hin. apply filter_clocked_kept in Hin as [Hin [j Hj]].
    split; [exact Hin|]. unfold messageFilter in Hj. apply Z.ltb_lt in Hj.
    specialize (Hclock j). subst ttl. lia. }
  subst this'; unfold cleanUp; simpl. split; [|split; [|split]].
  - intros Hin Ht. apply Hkeep; assumption.
  - intros Hin. apply Hkept in Hin. exact Hin.
  - intros Hin Ht. apply Hkeep; assumption.
  - intros Hin. apply Hkept in Hin. exact Hin.
Qed.

Lemma cleanUp_moving_clock_witness :
  let clock := fun k => if (k <? 2)%nat then 62000 else 62001 in
  let this' := cleanUp clock sample_aging in
  Forall (fun u => In u (userMessages (storage sample_aging)) /\
                   62000 - 60000 < time u)
         (userMessages (storage this')).
Proof.
  intros clock this'.
  assert (Hclock : forall k, 62000 <= clock k <= 62001).
  { intros k. unfold clock. destruct (k <? 2)%nat; lia. }
  apply Forall_forall. intros u.
  exact (proj1 (proj2 (cleanUp_moving_clock 62000 62001 clock sample_aging
                         Hclock u))).
Defined.

(** X8.  A sweep at [t2] after a sweep at an earlier time [t1] leaves what
    the sweep at [t2] alone leaves; with [t1 = t2], a sweep repeated at
    the same instant removes nothing more. *)
Theorem cleanUp_later_absorbs :
  forall t1 t2 this,
    t1 <= t2 ->
    cleanUp (fun _ => t2) (cleanUp (fun _ => t1) this)
      = cleanUp (fun _ => t2) this.
Proof.
  intros t1 t2 this Ht. unfold cleanUp; simpl.
  rewrite !(filter_clocked_const _ (fun _ : nat => t1) t1) by reflexivity.
  rewrite !(filter_clocked_const _ (fun _ : nat => t2) t2) by reflexivity.
  assert (Himp : forall x,
            messageFilter this t2 x = true -> messageFilter this t1 x = true).
  { intros x. unfold messageFilter. rewrite !Z.ltb_lt. lia. }
  change (messageFilter (set_storage _ this)) with (messageFilter this).
  rewrite !(filter_absorbs _ _ _ Himp). reflexivity.
Qed.

Lemma cleanUp_later_absorbs_witness :
  cleanUp (fun _ => 62000) (cleanUp (fun _ => 1000) sample_aging)
    = cleanUp (fun _ => 62000) sample_aging.
Proof.
  apply (cleanUp_later_absorbs 1000 62000 sample_aging). lia.
Defined.

(** X9.  The lifetime of a record is exactly [storeTimeout]: a record
    stored at [t] is in its log after a sweep at [t'] if and only if
    [t' < t + storeTimeout].  A new server has [storeTimeout] 60000 when
    the option is left out or is 0, and 1000 times the option
    otherwise. *)
Theorem record_lifetime :
  forall this t msg token t',
    (In (new_update t token msg this)
        (botMessages
           (storage (cleanUp (fun _ => t')
                             (addBotMessage t msg token this))))
     <-> t' < t + storeTimeout this) /\
    storeTimeout (constructor None) = 60000 /\
    storeTimeout (constructor (Some 0)) = 60000 /\
    (forall seconds, seconds <> 0 ->
       storeTimeout (constructor (Some seconds)) = seconds * 1000).
Proof.
  intros this t msg token t'. split; [|split; [|split]].
  - unfold cleanUp; simpl.
    rewrite (filter_clocked_const _ _ t') by reflexivity.
    rewrite filter_In. unfold messageFilter; simpl.
    rewrite Z.ltb_lt, in_app_iff. simpl. split; [lia|].
    intros H. split; [right; left; reflexivity | lia].
  - reflexivity.
  - reflexivity.
  - intros seconds H. unfold constructor; simpl.
    apply Z.eqb_neq in H. rewrite H. reflexivity.
Qed.

Lemma record_lifetime_witness :
  storeTimeout (constructor (Some 5)) = 5 * 1000.
Proof.
  apply (proj2 (proj2 (proj2
           (record_lifetime sample_aging 0 JNull JNull 0))) 5).
  discriminate.
Defined.

(** ** More on the history *)

(** X10.  The history of a token holds exactly the stored records whose
    [botToken] equals the token, those of the bot log first, then those of
    the user log, each group in the order of the log. *)
Theorem getUpdatesHistory_contents :
  forall token this,
    getUpdatesHistory token this
      = filter (fun u => equals token (botToken u))
               (botMessages (storage this))
        ++ filter (fun u => equals token (botToken u))
                  (userMessages (storage this)) /\
    forall u,
      In u (getUpdatesHistory token this) <->
      In u (all_updates this) /\ equals token (botToken u) = true.
Proof.
  intros token this. rewrite getUpdatesHistory_filter.
  split; [apply filter_app|].
  intros u. rewrite filter_In. unfold all_updates, propEq.
  rewrite !in_app_iff. change (prop "botToken" u) with (botToken u). tauto.
Qed.

Lemma getUpdatesHistory_contents_witness :
  Forall (fun u => In u (all_updates sample_dialogue))
         (getUpdatesHistory (JStr "token") sample_dialogue).
Proof.
  apply Forall_forall. intros u Hin.
  exact (proj1 (proj1 (proj2 (getUpdatesHistory_contents (JStr "token")
                                sample_dialogue) u) Hin)).
Defined.

(** X11.  What an append does to a history: a bot message of the token
    goes between the bot records and the user records, a user message of
    the token goes to the end, and a message of another token changes
    nothing. *)
Theorem getUpdatesHistory_after_append :
  forall token millis msg tok this,
    getUpdatesHistory token (addBotMessage millis msg tok this)
      = filter (fun u => equals token (botToken u))
               (botMessages (storage this))
        ++ (if equals token tok then [new_update millis tok msg this]
            else [])
        ++ filter (fun u => equals token (botToken u))
                  (userMessages (storage this)) /\
    (forall this',
       addUserMessage millis msg this = Ok this' ->
       exists tok',
         get_prop msg "botToken" = Ok tok' /\
         getUpdatesHistory token this'
           = getUpdatesHistory token this
             ++ (if equals token tok' then [new_update millis tok' msg this]
                 else [])).
Proof.
  intros token millis msg tok this. split.
  - rewrite getUpdatesHistory_filter. simpl.
    rewrite !filter_app. simpl. unfold propEq, prop. simpl.
    rewrite <- app_assoc. destruct (equals token tok); reflexivity.
  - intros this'. unfold addUserMessage.
    destruct (get_prop msg "botToken") as [tok'|e]; simpl; [|discriminate].
    destruct (truthy tok'); [|discriminate].
    intros H; inversion H; subst this'; clear H.
    exists tok'. split; [reflexivity|].
    rewrite !getUpdatesHistory_filter. simpl.
    rewrite !filter_app. simpl. unfold propEq, prop. simpl.
    rewrite <- app_assoc. destruct (equals token tok'); reflexivity.
Qed.

Lemma getUpdatesHistory_after_append_witness :
  exists this',
    addUserMessage 30000 (sample_payload 1 30) sample_dialogue = Ok this' /\
    getUpdatesHistory (JStr "token") this'
      = getUpdatesHistory (JStr "token") sample_dialogue
        ++ [new_update 30000 (JStr "token") (sample_payload 1 30)
                       sample_dialogue].
Proof.
  eexists. split; [reflexivity|].
  destruct (proj2 (getUpdatesHistory_after_append (JStr "token") 30000
                     (sample_payload 1 30) JNull sample_dialogue)
              _ eq_refl) as (tok' & Htok & Hhist).
  inversion Htok; subst tok'. exact Hhist.
Defined.

(** X12.  After [close] the server answers as an empty store does: every
    history is empty, [deleteMessage] returns [false] for all arguments
    and throws for none, a sweep and a second [close] change nothing. *)
Theorem close_empties :
  forall this,
    let this' := close this in
    (forall token, getUpdatesHistory token this' = []) /\
    (forall chatId msgId, deleteMessage chatId msgId this' = Ok (false, this')) /\
    (forall clock, cleanUp clock this' = this') /\
    close this' = this'.
Proof.
  intros this. cbv zeta. repeat split.
Qed.

(** ** Waiting for a message *)

Lemma call_emitted_same c this :
  is_append c = false -> emitted (call c this) = emitted this.
Proof.
  case_call c; simpl; try discriminate; intros _; try reflexivity.
  - destruct (deleteMessage chatId msgId this) as [[b this']|e] eqn:E;
      [|reflexivity].
    apply deleteMessage_cases in E as [->|[id [->| ->]]]; reflexivity.
  - unfold stop. destruct (server this); reflexivity.
Qed.

(** A call emits its event when it is an append that goes through, and
    nothing otherwise. *)
Lemma observed_call_cases c o :
  let o1 := {| observed := call c (observed o); listeners := listeners o;
               resolved := resolved o; promises := promises o |} in
  (observed_call c o = o1 /\
   forall ev, appends_on ev (ActCall c) o = false) \/
  (exists ev, observed_call c o = emit ev o1 /\
     forall ev', appends_on ev' (ActCall c) o = Event_eqb ev' ev).
Proof.
  cbv zeta. unfold observed_call.
  assert (Hone : forall (ev : Event) l,
            firstn (List.length (ev :: l) - List.length l) (ev :: l) = [ev]).
  { intros ev l. simpl List.length.
    replace (S (List.length l) - List.length l)%nat with 1%nat by lia.
    reflexivity. }
  assert (Hnone : forall l : list Event,
            firstn (List.length l - List.length l) l = []).
  { intros l. rewrite Nat.sub_diag. reflexivity. }
  destruct (is_append c) eqn:Ha.
  - case_call c; try discriminate.
    + right. exists AddedBotMessage. simpl call. unfold addBotMessage.
      simpl emitted. rewrite Hone. split; [reflexivity|].
      intros []; reflexivity.
    + simpl call. simpl appends_on.
      destruct (addUserMessage millis msg (observed o)) as [this'|e] eqn:E.
      * right. exists AddedUserMessage.
        unfold addUserMessage in E.
        destruct (get_prop msg "botToken") as [token|e]; simpl in E;
          [|discriminate].
        destruct (truthy token); [|discriminate].
        inversion E; subst this'; clear E. simpl emitted. rewrite Hone.
        split; [reflexivity|]. intros []; reflexivity.
      * left. rewrite Hnone. split; [reflexivity|]. intros []; reflexivity.
  - left. rewrite (call_emitted_same _ _ Ha), Hnone.
    split; [reflexivity|].
    intros ev. case_call c; try discriminate; destruct ev; reflexivity.
Qed.

Lemma Event_eqb_eq a b : Event_eqb a b = true <-> a = b.
Proof.
  destruct a, b; simpl; split; congruence.
Qed.

Lemma is_resolved_In p o : is_resolved p o = true <-> In p (resolved o).
Proof.
  unfold is_resolved. rewrite existsb_exists. split.
  - intros (q & Hq & E). apply Nat.eqb_eq in E. congruence.
  - intros H. exists p. split; [exact H | apply Nat.eqb_refl].
Qed.

(** An act adds to the listeners and to the resolved promises and takes
    nothing away. *)
Lemma act_grows a o :
  (exists more, listeners (act a o) = listeners o ++ more /\
     List.length more = if is_wait a then 1%nat else 0%nat) /\
  (forall p, In p (resolved o) -> In p (resolved (act a o))).
Proof.
  destruct a as [c| |]; simpl.
  - destruct (observed_call_cases c o) as [[-> _]|(ev & -> & _)]; simpl;
      (split; [exists []; rewrite app_nil_r; auto|]); auto.
    intros p Hp. apply in_or_app; auto.
  - split; [exists [(AddedBotMessage, promises o)]; auto | auto].
  - split; [exists [(AddedUserMessage, promises o)]; auto | auto].
Qed.

Lemma acts_grow l o :
  (exists more, listeners (acts l o) = listeners o ++ more /\
     List.length more = List.length (filter is_wait l)) /\
  (forall p, In p (resolved o) -> In p (resolved (acts l o))).
Proof.
  revert o; induction l as [|a l IH]; intros o; simpl.
  - split; [exists []; rewrite app_nil_r; auto | auto].
  - destruct (act_grows a o) as [(m1 & E1 & L1) R1].
    destruct (IH (act a o)) as [(m2 & E2 & L2) R2].
    split; [|auto].
    exists (m1 ++ m2). rewrite E2, E1, app_assoc, length_app, L1, L2.
    split; [reflexivity|]. destruct (is_wait a); reflexivity.
Qed.

Lemma act_wf a o : observed_wf o -> observed_wf (act a o).
Proof.
  unfold observed_wf. intros [Hr Hl].
  destruct a as [c| |]; simpl.
  - destruct (observed_call_cases c o) as [[-> _]|(ev & -> & _)]; simpl;
      [auto|].
    split; [|exact Hl]. apply Forall_app; split; [exact Hr|].
    apply Forall_map. apply Forall_filter_keep. exact Hl.
  - split; [eapply Forall_impl; [|exact Hr]; simpl; lia|].
    apply Forall_app; split;
      [eapply Forall_impl; [|exact Hl]; simpl; lia|].
    repeat constructor.
  - split; [eapply Forall_impl; [|exact Hr]; simpl; lia|].
    apply Forall_app; split;
      [eapply Forall_impl; [|exact Hl]; simpl; lia|].
    repeat constructor.
Qed.

Lemma acts_wf l o : observed_wf o -> observed_wf (acts l o).
Proof.
  revert o; induction l as [|a l IH]; intros o H; simpl;
    auto using act_wf.
Qed.

Lemma observe_wf this : observed_wf (observe this).
Proof.
  split; constructor.
Qed.

(** X13.  Every promise made by [waitBotMessage] or [waitUserMessage]
    before an append of its channel that goes through is resolved by that
    append, however many there are, and stays resolved whatever follows. *)
Theorem wait_resolved_by_next_append :
  forall ev o0 before a after,
    let p := fst (wait ev o0) in
    let o := acts before (snd (wait ev o0)) in
    appends_on ev a o = true ->
    is_resolved p (acts after (act a o)) = true.
Proof.
  intros ev o0 before a after p o Happ.
  apply is_resolved_In. apply (proj2 (acts_grow after (act a o))).
  assert (Hin : In (ev, p) (listeners o)).
  { destruct (acts_grow before (snd (wait ev o0))) as [(more & E & _) _].
    subst o. rewrite E. simpl. rewrite !in_app_iff. simpl. auto. }
  destruct a as [c| |]; try (destruct ev; discriminate).
  simpl act.
  destruct (observed_call_cases c o) as [[_ Hq]|(ev' & -> & Hev)].
  - rewrite Hq in Happ; discriminate.
  - rewrite Hev in Happ. apply Event_eqb_eq in Happ; subst ev'.
    simpl. apply in_or_app; right.
    apply (in_map snd _ (ev, p)). apply filter_In. split; [exact Hin|].
    simpl. apply Event_eqb_eq; reflexivity.
Qed.

Lemma wait_resolved_by_next_append_witness :
  let o0 := observe sample_dialogue in
  is_resolved 0
    (acts [ActCall CallClose]
       (act (ActCall (CallAddBotMessage 0 JNull JNull))
          (acts [ActWaitBotMessage; ActWaitUserMessage]
                (snd (wait AddedBotMessage o0))))) = true.
Proof.
  intros o0.
  apply (wait_resolved_by_next_append AddedBotMessage o0
           [ActWaitBotMessage; ActWaitUserMessage]
           (ActCall (CallAddBotMessage 0 JNull JNull))
           [ActCall CallClose]).
  reflexivity.
Defined.

(** X14.  A promise does not resolve for what happened before it was made,
    nor for the other channel, nor for a user message that was refused: it
    stays unresolved as long as no append of its channel goes through. *)
Theorem wait_not_resolved_before :
  forall this before ev after,
    let o0 := acts before (observe this) in
    let p := fst (wait ev o0) in
    quiet_on ev after (snd (wait ev o0)) = true ->
    is_resolved p (acts after (snd (wait ev o0))) = false.
Proof.
  intros this before ev after o0 p Hquiet.
  pose proof (acts_wf before _ (observe_wf this)) as [Hr0 Hl0].
  fold o0 in Hr0, Hl0. clearbody o0.
  change p with (promises o0) in *. clear p.
  set (p := promises o0) in *.
  set (J := fun o => (p < promises o)%nat /\ ~ In p (resolved o) /\
                     forall e', In (e', p) (listeners o) -> e' = ev).
  assert (HJ0 : J (snd (wait ev o0))).
  { unfold J; simpl. split; [subst p; lia|]. split.
    - intros Hin. rewrite Forall_forall in Hr0.
      specialize (Hr0 _ Hin). subst p; lia.
    - intros e' Hin. apply in_app_or in Hin as [Hin|[Hin|[]]].
      + rewrite Forall_forall in Hl0. specialize (Hl0 _ Hin).
        subst p; simpl in Hl0. lia.
      + congruence. }
  clearbody p.
  assert (Hstep : forall a o, J o -> appends_on ev a o = false -> J (act a o)).
  { intros a o (Hp & Hnr & Hown) Ha. unfold J.
    destruct a as [c| |]; simpl.
    - destruct (observed_call_cases c o) as [[-> _]|(ev' & -> & Hev)];
        simpl; [auto|].
      split; [exact Hp|]. split; [|exact Hown].
      intros Hin. apply in_app_or in Hin as [Hin|Hin]; [auto|].
      apply in_map_iff in Hin as ([e' q] & Eq & Hin). simpl in Eq; subst q.
      apply filter_In in Hin as [Hin He]. simpl in He.
      apply Event_eqb_eq in He; subst e'.
      apply Hown in Hin; subst ev'.
      rewrite Hev in Ha. destruct ev; discriminate.
    - split; [lia|]. split; [exact Hnr|].
      intros e' Hin. apply in_app_or in Hin as [Hin|[Hin|[]]]; [auto|].
      inversion Hin; lia.
    - split; [lia|]. split; [exact Hnr|].
      intros e' Hin. apply in_app_or in Hin as [Hin|[Hin|[]]]; [auto|].
      inversion Hin; lia. }
  assert (Hrun : forall l o, J o -> quiet_on ev l o = true -> J (acts l o)).
  { induction l as [|a l IH]; intros o Ho Hq; simpl; [exact Ho|].
    simpl in Hq. apply andb_true_iff in Hq as [Ha Hq].
    apply negb_true_iff in Ha. auto. }
  destruct (Hrun _ _ HJ0 Hquiet) as (_ & Hnr & _).
  destruct (is_resolved p _) eqn:E; [|reflexivity].
  apply is_resolved_In in E. contradiction.
Qed.

Lemma wait_not_resolved_before_witness :
  let o0 := acts [ActCall (CallAddUserMessage 0 (sample_payload 1 0))]
                 (observe (constructor None)) in
  is_resolved (fst (wait AddedUserMessage o0))
    (acts [ActCall (CallAddBotMessage 1 JNull JNull);
           ActCall (CallAddUserMessage 2 anonymous_payload)]
          (snd (wait AddedUserMessage o0))) = false.
Proof.
  apply (wait_not_resolved_before (constructor None)
           [ActCall (CallAddUserMessage 0 (sample_payload 1 0))]
           AddedUserMessage
           [ActCall (CallAddBotMessage 1 JNull JNull);
            ActCall (CallAddUserMessage 2 anonymous_payload)]).
  reflexivity.
Defined.

(** X15.  No listener is ever removed: after any acts the listeners are
    those from before followed by one more for every wait, whether its
    promise has been resolved or not. *)
Theorem listeners_only_grow :
  forall l o,
    (exists more,
       listeners (acts l o) = listeners o ++ more /\
       List.length more = List.length (filter is_wait l)) /\
    (forall p, is_resolved p o = true -> is_resolved p (acts l o) = true).
Proof.
  intros l o. destruct (acts_grow l o) as [Hl Hr].
  split; [exact Hl|].
  intros p Hp. apply is_resolved_In. apply Hr.
  apply is_resolved_In. exact Hp.
Qed.

Lemma listeners_only_grow_witness :
  is_resolved 0
    (acts [ActCall CallClose; ActWaitBotMessage]
       (act (ActCall (CallAddBotMessage 0 JNull JNull))
            (snd (wait AddedBotMessage (observe sample_dialogue))))) = true.
Proof.
  apply (proj2 (listeners_only_grow [ActCall CallClose; ActWaitBotMessage]
                  (act (ActCall (CallAddBotMessage 0 JNull JNull))
                     (snd (wait AddedBotMessage
                             (observe sample_dialogue)))))).
  reflexivity.
Defined.

(** ** Restarting the daemon *)

Lemma remove_nth_length_Some {A} i (l : list A) x :
  nth_error l i = Some x ->
  (List.length (remove_nth i l) + 1 = List.length l)%nat.
Proof.
  revert i; induction l as [|y l IH]; intros [|i]; simpl; try discriminate.
  - intros _; lia.
  - intros H. specialize (IH i H). lia.
Qed.

Lemma call_started c this :
  is_stop (Api c) = false -> started (call c this) = started this.
Proof.
  case_call c; simpl; try discriminate; intros _; try reflexivity.
  - case_addUserMessage; reflexivity.
  - destruct (deleteMessage chatId msgId this) as [[b this']|e] eqn:E;
      [|reflexivity].
    apply deleteMessage_cases in E as [->|[id [->| ->]]]; reflexivity.
Qed.

(** While the server runs and is neither stopped nor started again, the
    number of pending delays does not change: each one that expires is
    replaced. *)
Lemma step_running e w w' :
  started (self w) = true ->
  is_stop e = false -> is_Listening e = false ->
  step e w = Some w' ->
  started (self w') = true /\
  List.length (timers w') = List.length (timers w).
Proof.
  intros Hs Hstop Hl.
  destruct e as [d|i| | |c]; simpl in *; try discriminate.
  - destruct (0 <=? d); [|discriminate].
    intros H; inversion H; subst; simpl; auto.
  - destruct (nth_error (timers w) i) as [due|] eqn:Ei; [|discriminate].
    destruct (due <=? now w); [|discriminate].
    unfold cleanUpDaemon; simpl. rewrite Hs.
    intros H; inversion H; subst; simpl. split; [exact Hs|].
    rewrite length_app; simpl. apply (remove_nth_length_Some _ _ _ Ei).
  - intros H; inversion H; subst; simpl.
    rewrite call_started by (destruct c; auto). auto.
Qed.

Lemma steps_running es w w' :
  started (self w) = true ->
  forallb (fun e => negb (is_stop e) && negb (is_Listening e)) es = true ->
  steps es w = Some w' ->
  started (self w') = true /\
  List.length (timers w') = List.length (timers w).
Proof.
  revert w; induction es as [|e es IH]; intros w Hs Hes; simpl.
  - intros H; inversion H; subst; auto.
  - simpl in Hes. apply andb_true_iff in Hes as [He Hes].
    apply andb_true_iff in He as [He1 He2].
    apply negb_true_iff in He1, He2.
    destruct (step e w) as [w1|] eqn:E; [|discriminate].
    destruct (step_running _ _ _ Hs He1 He2 E) as [Hs1 Ht1].
    intros H. destruct (IH w1 Hs1 Hes H) as [Hs' Ht'].
    split; [exact Hs' | congruence].
Qed.

(** X16.  [stop] does not cancel the pending delay of the daemon and
    [start] begins a new chain.  A server that is stopped and started
    again has one more pending delay than before, and keeps that many for
    as long as it runs: when the old delay had not expired, two daemons
    sweep from then on. *)
Theorem restart_adds_daemon :
  forall w w1,
    steps [ShutDown; Listening] w = Some w1 ->
    started (self w1) = true /\
    List.length (timers w1) = S (List.length (timers w)) /\
    forall es w2,
      forallb (fun e => negb (is_stop e) && negb (is_Listening e)) es
        = true ->
      steps es w1 = Some w2 ->
      started (self w2) = true /\
      List.length (timers w2) = S (List.length (timers w)).
Proof.
  intros w w1 H. simpl in H.
  destruct (server (self w)) eqn:Hsrv; [|discriminate].
  unfold cleanUpDaemon in H; simpl in H.
  inversion H; subst w1; clear H; simpl.
  assert (Hlen : List.length (timers w
                              ++ [now w + storeTimeout (stop (self w))])
                 = S (List.length (timers w)))
    by (rewrite length_app; simpl; lia).
  split; [reflexivity|]. split; [exact Hlen|].
  intros es w2 Hes H2.
  apply steps_running in H2 as [Hs2 Ht2]; [|reflexivity|exact Hes].
  simpl in Ht2. split; [exact Hs2 | congruence].
Qed.

Lemma restart_adds_daemon_witness :
  exists w1,
    steps [ShutDown; Listening] sample_loop = Some w1 /\
    List.length (timers w1) = 2%nat /\
    forall w2,
      steps [Fire 0; Elapse 60000; Fire 0; Fire 0] w1 = Some w2 ->
      List.length (timers w2) = 2%nat.
Proof.
  eexists. split; [reflexivity|].
  destruct (restart_adds_daemon sample_loop _ eq_refl) as (_ & Hlen & Hrun).
  split; [exact Hlen|].
  intros w2 H2.
  exact (proj2 (Hrun [Fire 0; Elapse 60000; Fire 0; Fire 0] w2
                  eq_refl H2)).
Defined.

(** ** The client: construction *)

Lemma option_or_defined options name dflt :
  options <> JNull -> truthy dflt = true ->
  exists v,
    Client.option_or (Client.default_options options) name dflt = Ok v /\
    truthy v = true.
Proof.
  intros Hnull Hd. unfold Client.option_or.
  destruct options as [| |b|n|s|fs]; simpl; try congruence; eauto.
  destruct (assoc name fs) as [v|]; simpl; [|eauto].
  destruct (truthy v) eqn:E; eauto.
Qed.

(** The seven reads of the options, none of which throws. *)
Ltac read_option name dflt Hnull :=
  let v := fresh "v" in
  let T := fresh "T" in
  destruct (option_or_defined _ name dflt Hnull eq_refl) as (v & -> & T).

Ltac read_options Hnull :=
  read_option "userId" (JNum 1) Hnull;
  read_option "timeout" (JNum 1000) Hnull;
  read_option "interval" (JNum 100) Hnull;
  read_option "chatId" (JNum 1) Hnull;
  read_option "firstName" (JStr "TestName") Hnull;
  read_option "userName" (JStr "testUserName") Hnull;
  read_option "type" (JStr "private") Hnull.

(** X17.  What the constructor of the client throws and what it builds.
    With [null] for the options it throws a [TypeError], whatever the
    other arguments.  Otherwise it throws [Error] for a missing [url],
    then for a missing [botToken] ([undefined] only: [null] and the empty
    string pass), and else returns a client with the given [url] and
    [botToken] whose seven option fields are all truthy: a falsy option
    (0, the empty string, [null], [false]) gives way to the default, so
    [timeout] and [interval] are never 0. *)
Theorem client_constructor_outcome :
  forall url botToken options,
    (options = JNull ->
     Client.constructor url botToken options
       = Client.Raise (Client.Native TypeError)) /\
    (options <> JNull ->
     (url = JUndefined ->
      Client.constructor url botToken options
        = Client.Raise (Client.Error "Please define telegram api URL")) /\
     (url <> JUndefined -> botToken = JUndefined ->
      Client.constructor url botToken options
        = Client.Raise (Client.Error "Please define bot token")) /\
     (url <> JUndefined -> botToken <> JUndefined ->
      exists this,
        Client.constructor url botToken options = Client.Return this /\
        Client.url this = url /\
        Client.botToken this = botToken /\
        truthy (Client.userId this) = true /\
        truthy (Client.timeout this) = true /\
        truthy (Client.interval this) = true /\
        truthy (Client.chatId this) = true /\
        truthy (Client.firstName this) = true /\
        truthy (Client.userName this) = true /\
        truthy (Client.type this) = true)).
Proof.
  intros url botToken options. split.
  - intros ->. reflexivity.
  - intros Hnull. unfold Client.constructor. read_options Hnull.
    cbn [bind]. split; [|split].
    + intros ->. reflexivity.
    + intros Hurl ->. destruct url; congruence.
    + intros Hurl Htok. eexists. split.
      * destruct url; try congruence; destruct botToken; try congruence;
          reflexivity.
      * simpl. repeat split; assumption.
Qed.

Lemma client_constructor_outcome_witness :
  exists this,
    Client.constructor (JStr "http://localhost:9000") (JStr "token")
      (JObj [("timeout", JNum 0); ("interval", JNum 50)])
      = Client.Return this /\
    truthy (Client.timeout this) = true /\
    truthy (Client.interval this) = true.
Proof.
  destruct (client_constructor_outcome
              (JStr "http://localhost:9000") (JStr "token")
              (JObj [("timeout", JNum 0); ("interval", JNum 50)]))
    as [_ H].
  destruct H as (_ & _ & H); [discriminate|].
  destruct H as (this & Hc & _ & _ & _ & Ht & Hi & _);
    [discriminate | discriminate |].
  exists this. repeat split; assumption.
Defined.

(** ** The client: messages *)

(** The merge, field by field. *)
Lemma mergeDeepRight_eq l r :
  Client.mergeDeepRight l r
  = map (fun kv => (fst kv,
                    match assoc (fst kv) r with
                    | Some w => Client.merge_value (snd kv) w
                    | None => snd kv
                    end)) l
    ++ filter (fun kv => negb (Client.has_key (fst kv) l)) r.
Proof.
  unfold Client.mergeDeepRight. simpl. f_equal.
  induction l as [|[k v] l IH]; simpl; [reflexivity|].
  rewrite IH. reflexivity.
Qed.

Lemma assoc_app k l l' :
  assoc k (l ++ l') = match assoc k l with
                      | Some v => Some v
                      | None => assoc k l'
                      end.
Proof.
  induction l as [|[k' v] l IH]; simpl; [reflexivity|].
  destruct (String.eqb k k'); [reflexivity | exact IH].
Qed.

Lemma assoc_map_values k (g : string -> JsValue -> JsValue) l :
  assoc k (map (fun kv => (fst kv, g (fst kv) (snd kv))) l)
  = match assoc k l with
    | Some v => Some (g k v)
    | None => None
    end.
Proof.
  induction l as [|[k' v] l IH]; simpl; [reflexivity|].
  destruct (String.eqb k k') eqn:E; [|exact IH].
  apply String.eqb_eq in E; subst k'. reflexivity.
Qed.

Lemma assoc_filter_keys k (keep : string -> bool) l :
  keep k = true ->
  assoc k (filter (fun kv => keep (fst kv)) l) = assoc k l.
Proof.
  intros Hk. induction l as [|[k' v] l IH]; simpl; [reflexivity|].
  destruct (String.eqb k k') eqn:E.
  - apply String.eqb_eq in E; subst k'. rewrite Hk. simpl.
    rewrite String.eqb_refl. reflexivity.
  - destruct (keep k'); simpl; [rewrite E|]; exact IH.
Qed.

Lemma assoc_mergeDeepRight k l r :
  assoc k (Client.mergeDeepRight l r)
  = match assoc k l, assoc k r with
    | Some lv, Some rv => Some (Client.merge_value lv rv)
    | Some lv, None => Some lv
    | None, rv => rv
    end.
Proof.
  rewrite mergeDeepRight_eq, assoc_app.
  rewrite (assoc_map_values k
             (fun k v => match assoc k r with
                         | Some w => Client.merge_value v w
                         | None => v
                         end)).
  destruct (assoc k l) as [lv|] eqn:El;
    [destruct (assoc k r); reflexivity|].
  apply (assoc_filter_keys k (fun k => negb (Client.has_key k l))).
  unfold Client.has_key. rewrite El. reflexivity.
Qed.

(** Reading a key of a deep merge: the value of the right object when only
    it has the key or when one of the two values is not an object, the
    merge of the two values when both are objects, and the value of the
    left object when only it has the key.  Merging with the empty object
    on either side changes nothing. *)
Lemma mergeDeepRight_lookup :
  forall l r k,
    assoc k (Client.mergeDeepRight l r)
      = match assoc k l, assoc k r with
        | Some (JObj lf), Some (JObj rf) =>
            Some (JObj (Client.mergeDeepRight lf rf))
        | Some _, Some rv => Some rv
        | Some lv, None => Some lv
        | None, rv => rv
        end /\
    Client.mergeDeepRight l [] = l /\
    Client.mergeDeepRight [] r = r.
Proof.
  intros l r k. split; [|split].
  - rewrite assoc_mergeDeepRight.
    destruct (assoc k l) as [lv|]; [|reflexivity].
    destruct (assoc k r) as [rv|]; destruct lv; try reflexivity;
      destruct rv; reflexivity.
  - rewrite mergeDeepRight_eq. simpl. rewrite app_nil_r.
    induction l as [|[k' v] l IH]; simpl; [reflexivity|].
    rewrite IH. reflexivity.
  - rewrite mergeDeepRight_eq. simpl.
    apply filter_all, Forall_forall. intros; reflexivity.
Qed.

Lemma merge_value_right lv rv :
  (forall fs, rv <> JObj fs) -> Client.merge_value lv rv = rv.
Proof.
  intros H. destruct lv; try reflexivity.
  destruct rv; try reflexivity. exfalso; eapply H; reflexivity.
Qed.

Lemma get_prop_JObj fs k :
  get_prop (JObj fs) k = Ok match assoc k fs with
                            | Some v => v
                            | None => JUndefined
                            end.
Proof.
  simpl. destruct (assoc k fs); reflexivity.
Qed.

(** X18.  The fields of a made message.  Without options (or with empty
    ones) it carries the token, the chat identity of the client, [date] in
    whole seconds and the text.  With options, a key the options do not
    have keeps its default, a key they give a value that is not an object
    takes that value, and a [chat] object is merged into the default
    [chat]: an [id] given there replaces the client's and the [type] that
    is not given stays. *)
Theorem makeMessage_fields :
  forall millis text opts this k,
    let dflt := Client.makeMessage millis text None this in
    let m := Client.makeMessage millis text (Some opts) this in
    Client.makeMessage millis text (Some []) this = dflt /\
    get_prop dflt "botToken" = Ok (Client.botToken this) /\
    get_prop dflt "date" = Ok (JNum (millis / 1000)) /\
    get_prop dflt "text" = Ok text /\
    chat_id_of dflt = Ok (Client.chatId this) /\
    (assoc k opts = None -> get_prop m k = get_prop dflt k) /\
    (forall v, assoc k opts = Some v -> (forall fs, v <> JObj fs) ->
       get_prop m k = Ok v) /\
    (forall cf, assoc "chat" opts = Some (JObj cf) ->
       (assoc "type" cf = None ->
        (chat <- get_prop m "chat" ;; get_prop chat "type")
          = Ok (Client.type this)) /\
       (forall v, assoc "id" cf = Some v -> (forall fs, v <> JObj fs) ->
          chat_id_of m = Ok v)).
Proof.
  intros millis text opts this k dflt m.
  split; [reflexivity|]. split; [reflexivity|]. split; [reflexivity|].
  split; [reflexivity|]. split; [reflexivity|].
  subst dflt m. unfold Client.makeMessage.
  split; [|split].
  - intros Hk. rewrite !get_prop_JObj, !assoc_mergeDeepRight, Hk.
    simpl (assoc k []).
    match goal with
    | |- context [assoc k ?l] => destruct (assoc k l)
    end; reflexivity.
  - intros v Hk Hv. rewrite get_prop_JObj, assoc_mergeDeepRight, Hk.
    match goal with
    | |- context [assoc k ?l] => destruct (assoc k l)
    end; cbv iota beta; [rewrite merge_value_right by exact Hv|];
      reflexivity.
  - intros cf Hchat.
    assert (E : forall l,
              get_prop (JObj (Client.mergeDeepRight
                                (("botToken", Client.botToken this)
                                 :: ("from", l)
                                 :: ("chat", JObj
                                       [("id", Client.chatId this);
                                        ("first_name", Client.firstName this);
                                        ("username", Client.userName this);
                                        ("type", Client.type this)])
                                 :: [("date", JNum (millis / 1000));
                                     ("text", text)]) opts)) "chat"
              = Ok (JObj (Client.mergeDeepRight
                            [("id", Client.chatId this);
                             ("first_name", Client.firstName this);
                             ("username", Client.userName this);
                             ("type", Client.type this)] cf))).
    { intros l. rewrite get_prop_JObj, assoc_mergeDeepRight, Hchat.
      reflexivity. }
    split.
    + intros Htype. rewrite E. cbn [bind].
      rewrite get_prop_JObj, assoc_mergeDeepRight, Htype. reflexivity.
    + intros v Hid Hv. unfold chat_id_of. rewrite E. cbn [bind].
      rewrite get_prop_JObj, assoc_mergeDeepRight, Hid.
      change (assoc "id" (("id", Client.chatId this) :: _))
        with (Some (Client.chatId this)). cbv iota beta.
      rewrite merge_value_right by exact Hv. reflexivity.
Qed.

Lemma makeMessage_fields_witness :
  let m := Client.makeMessage 1500 (JStr "hi")
             (Some [("chat", JObj [("id", JNum 5)]); ("date", JNum 7)])
             sample_client in
  get_prop m "date" = Ok (JNum 7) /\
  get_prop m "text" = Ok (JStr "hi") /\
  chat_id_of m = Ok (JNum 5) /\
  (chat <- get_prop m "chat" ;; get_prop chat "type") = Ok (JStr "private").
Proof.
  intros m.
  pose proof (makeMessage_fields 1500 (JStr "hi")
                [("chat", JObj [("id", JNum 5)]); ("date", JNum 7)]
                sample_client) as H.
  destruct (H "date") as (_ & _ & _ & _ & _ & _ & Hdate & _).
  destruct (H "text") as (_ & _ & _ & _ & _ & Htext & _ & Hchat).
  destruct (Hchat [("id", JNum 5)] eq_refl) as [Htype Hid].
  split; [apply (Hdate (JNum 7) eq_refl); discriminate|].
  split; [exact (Htext eq_refl)|].
  split; [apply (Hid (JNum 5) eq_refl); discriminate | exact (Htype eq_refl)].
Defined.

(** ** The client and the server together *)

(** X19.  Whether the server takes a message that a client made without
    options depends on the token of the client alone.  With a truthy token
    [addUserMessage] stores the message at the end of the user log under
    that token; with a falsy one, which the constructor lets through when
    it is not [undefined], it throws the assertion error. *)
Theorem made_message_accepted :
  forall client millis text t this,
    let m := Client.makeMessage millis text None client in
    (truthy (Client.botToken client) = true ->
     exists this',
       addUserMessage t m this = Ok this' /\
       userMessages (storage this')
         = userMessages (storage this)
           ++ [new_update t (Client.botToken client) m this] /\
       botMessages (storage this') = botMessages (storage this)) /\
    (truthy (Client.botToken client) = false ->
     addUserMessage t m this = Throw (AssertionError botToken_assert_msg)) /\
    (forall url,
       url <> JUndefined ->
       exists falsy,
         Client.constructor url (JStr "") JUndefined = Client.Return falsy /\
         truthy (Client.botToken falsy) = false).
Proof.
  intros client millis text t this m. split; [|split].
  - intros Htok. unfold addUserMessage.
    change (get_prop m "botToken") with (Ok (Client.botToken client)).
    cbn [bind]. rewrite Htok. eexists. repeat split.
  - intros Htok. unfold addUserMessage.
    change (get_prop m "botToken") with (Ok (Client.botToken client)).
    cbn [bind]. rewrite Htok. reflexivity.
  - intros url Hurl. eexists. split.
    + destruct url; try congruence; reflexivity.
    + reflexivity.
Qed.

Lemma made_message_accepted_witness :
  exists this',
    addUserMessage 5 (Client.makeMessage 1500 (JStr "hi") None sample_client)
                   sample_dialogue = Ok this' /\
    List.length (userMessages (storage this')) = 2%nat.
Proof.
  destruct (proj1 (made_message_accepted sample_client 1500 (JStr "hi") 5
                     sample_dialogue) eq_refl) as (this' & H & Hu & _).
  exists this'. split; [exact H|]. rewrite Hu. reflexivity.
Defined.

(** X20.  From the client through the server and back: a message made
    without options by a client with a truthy token and a primitive chat
    identity is stored, and [deleteMessage] with the chat identity of the
    client and the [messageId] that the append gave finds it and leaves
    the logs as they were; the server is one that is only used through
    its methods and whose records can all be read. *)
Theorem made_message_round_trip :
  forall config cs client millis text t,
    let this := run cs (constructor config) in
    let m := Client.makeMessage millis text None client in
    Forall (fun u => chat_readable u = true) (all_updates this) ->
    truthy (Client.botToken client) = true ->
    strict_eq (Client.chatId client) (Client.chatId client) = true ->
    exists this' s,
      addUserMessage t m this = Ok this' /\
      deleteMessage (Client.chatId client) (JNum (this_messageId this)) this'
        = Ok (true, s) /\
      storage s = storage this.
Proof.
  intros config cs client millis text t this m Hread Htok Hchat.
  assert (Hadd : exists this', addUserMessage t m this = Ok this').
  { unfold addUserMessage.
    change (get_prop m "botToken") with (Ok (Client.botToken client)).
    cbn [bind]. rewrite Htok. eauto. }
  destruct Hadd as [this' Hadd]. exists this'.
  destruct (append_then_delete_inv this t m JNull (Client.chatId client))
    as [_ Huser]; try assumption.
  - apply run_invariant, constructor_invariant.
  - reflexivity.
  - destruct (Huser this' Hadd) as (s & Hdel & Hsame). eauto.
Qed.

Lemma made_message_round_trip_witness :
  exists this' s,
    addUserMessage 5 (Client.makeMessage 1500 (JStr "hi") None sample_client)
                   sample_dialogue = Ok this' /\
    deleteMessage (JNum 1) (JNum 3) this' = Ok (true, s) /\
    storage s = storage sample_dialogue.
Proof.
  assert (Hread : Forall (fun u => chat_readable u = true)
                         (all_updates sample_dialogue))
    by (repeat constructor).
  exact (made_message_round_trip None
           [CallAddUserMessage 10000 (sample_payload 1 10);
            CallAddBotMessage 20000 (sample_payload 1 20) (JStr "token")]
           sample_client 1500 (JStr "hi") 5 Hread eq_refl eq_refl).
Defined.

(** X21.  The options can take the [chat] away.  A message made with
    [chat: null] (or [undefined]) by a client with a truthy token, the
    token not overridden, is still taken by [addUserMessage]; from then
    on [deleteMessage] throws for some arguments. *)
Theorem made_message_without_chat :
  forall client millis text opts v t this,
    truthy (Client.botToken client) = true ->
    assoc "botToken" opts = None ->
    assoc "chat" opts = Some v ->
    v = JNull \/ v = JUndefined ->
    exists this',
      addUserMessage t (Client.makeMessage millis text (Some opts) client)
                     this = Ok this' /\
      ~ deleteMessage_total this'.
Proof.
  intros client millis text opts v t this Htok Hnotok Hchat Hv.
  set (m := Client.makeMessage millis text (Some opts) client).
  assert (Hnobj : forall fs, v <> JObj fs)
    by (intros fs; destruct Hv; subst v; discriminate).
  assert (Em : get_prop m "botToken" = Ok (Client.botToken client)).
  { subst m. unfold Client.makeMessage.
    rewrite get_prop_JObj, assoc_mergeDeepRight, Hnotok. reflexivity. }
  assert (Ec : get_prop m "chat" = Ok v).
  { subst m. unfold Client.makeMessage.
    rewrite get_prop_JObj, assoc_mergeDeepRight, Hchat.
    change (assoc "chat" _) with
      (Some (JObj [("id", Client.chatId client);
                   ("first_name", Client.firstName client);
                   ("username", Client.userName client);
                   ("type", Client.type client)])).
    cbv iota beta. rewrite merge_value_right by exact Hnobj. reflexivity. }
  clearbody m.
  unfold addUserMessage. rewrite Em. cbn [bind]. rewrite Htok.
  eexists. split; [reflexivity|].
  intros Htotal. apply total_readable in Htotal.
  unfold all_updates in Htotal; simpl in Htotal.
  apply Forall_app in Htotal as [Hu _].
  apply Forall_app in Hu as [_ Hnew].
  inversion Hnew as [|? ? Hr _]; subst.
  unfold chat_readable in Hr; simpl message in Hr. rewrite Ec in Hr.
  destruct Hv; subst v; discriminate.
Qed.

Lemma made_message_without_chat_witness :
  exists this',
    addUserMessage 5
      (Client.makeMessage 1500 (JStr "hi") (Some [("chat", JNull)])
                          sample_client)
      sample_dialogue = Ok this' /\
    ~ deleteMessage_total this'.
Proof.
  apply (made_message_without_chat sample_client 1500 (JStr "hi")
           [("chat", JNull)] JNull 5 sample_dialogue);
    try reflexivity.
  left; reflexivity.
Defined.

(** X22.  [getClient] never fails for the address: unless the options are
    [null], it throws only for an [undefined] token, and otherwise returns
    a client for the address of the server and the token given. *)
Theorem getClient_outcome :
  forall apiURL botToken options,
    options <> JNull ->
    (botToken = JUndefined ->
     getClient apiURL botToken options
       = Client.Raise (Client.Error "Please define bot token")) /\
    (botToken <> JUndefined ->
     exists client,
       getClient apiURL botToken options = Client.Return client /\
       Client.url client = JStr apiURL /\
       Client.botToken client = botToken).
Proof.
  intros apiURL botToken options Hnull.
  unfold getClient, Client.constructor. read_options Hnull. cbn [bind].
  split.
  - intros ->. reflexivity.
  - intros Htok. eexists. split.
    + destruct botToken; try congruence; reflexivity.
    + split; reflexivity.
Qed.

Lemma getClient_outcome_witness :
  exists client,
    getClient "http://localhost:9000" (JStr "token") JUndefined
      = Client.Return client /\
    Client.url client = JStr "http://localhost:9000" /\
    Client.botToken client = JStr "token".
Proof.
  apply (getClient_outcome "http://localhost:9000" (JStr "token") JUndefined);
    discriminate.
Defined.

(** ** The pace of the daemon *)

Lemma call_storeTimeout c this :
  storeTimeout (call c this) = storeTimeout this.
Proof.
  case_call c; simpl; try reflexivity.
  - case_addUserMessage; reflexivity.
  - destruct (deleteMessage chatId msgId this) as [[b this']|e] eqn:E;
      [|reflexivity].
    apply deleteMessage_cases in E as [->|[id [->| ->]]]; reflexivity.
  - unfold stop. destruct (server this); reflexivity.
Qed.

Lemma spaced_snoc d l a b :
  spaced d (l ++ [a]) -> a + d <= b -> spaced d ((l ++ [a]) ++ [b]).
Proof.
  induction l as [|x l IH]; simpl.
  - intros _ H. auto.
  - destruct l as [|y l]; simpl in *.
    + intros [H1 _] H2. auto.
    + intros [H1 H2] H3. split; [exact H1|]. apply IH; assumption.
Qed.

(** X23.  A daemon that was started once sweeps no more often than once
    per [storeTimeout]: from the [listen] callback on a new server, and as
    long as the server is neither stopped nor started again, the times of
    the sweeps are at least [storeTimeout] apart, there is a first sweep
    (at the start), and exactly one delay is pending, due [storeTimeout]
    after the last sweep. *)
Theorem daemon_pace :
  forall config t w1 es w2,
    step Listening (new_loop config t) = Some w1 ->
    forallb (fun e => negb (is_stop e) && negb (is_Listening e)) es = true ->
    steps es w1 = Some w2 ->
    let ttl := storeTimeout (constructor config) in
    spaced ttl (sweeps w2) /\
    exists earlier last,
      sweeps w2 = t :: earlier /\
      List.last (sweeps w2) t = last /\
      timers w2 = [last + ttl] /\
      last <= now w2.
Proof.
  intros config t w1 es w2 H1 Hes H2 ttl.
  set (I := fun w =>
              started (self w) = true /\
              storeTimeout (self w) = ttl /\
              exists l last,
                sweeps w = l ++ [last] /\
                spaced ttl (sweeps w) /\
                hd t (sweeps w) = t /\
                timers w = [last + ttl] /\
                last <= now w).
  assert (I1 : I w1).
  { simpl in H1. inversion H1; subst w1; clear H1.
    unfold I, cleanUpDaemon; simpl. repeat split.
    exists [], t. simpl. repeat split; lia. }
  assert (Istep : forall e w w',
            I w -> is_stop e = false -> is_Listening e = false ->
            step e w = Some w' -> I w').
  { intros e w w' (Hs & Httl & l & last & Hsw & Hsp & Hhd & Htm & Hle)
           Hstop Hl.
    destruct e as [d|i| | |c]; simpl in *; try discriminate.
    - destruct (0 <=? d) eqn:Ed; [|discriminate].
      apply Z.leb_le in Ed.
      intros H; inversion H; subst w'; clear H.
      unfold I; simpl. repeat split; auto.
      exists l, last. repeat split; auto. lia.
    - rewrite Htm.
      destruct i as [|i]; simpl; [|destruct i; discriminate].
      destruct (last + ttl <=? now w) eqn:Ed; [|discriminate].
      apply Z.leb_le in Ed.
      unfold cleanUpDaemon; simpl. rewrite Hs.
      intros H; inversion H; subst w'; clear H.
      unfold I; simpl. repeat split; auto.
      exists (l ++ [last]), (now w). rewrite Hsw.
      repeat split; try lia.
      + apply spaced_snoc; [rewrite <- Hsw; exact Hsp | exact Ed].
      + rewrite Hsw in Hhd. destruct l; simpl in *; exact Hhd.
      + rewrite Httl. reflexivity.
    - intros H; inversion H; subst w'; clear H.
      unfold I; simpl. rewrite call_storeTimeout.
      rewrite call_started by (destruct c; auto).
      repeat split; auto. exists l, last. repeat split; auto. }
  assert (Irun : forall es w w',
            I w ->
            forallb (fun e => negb (is_stop e) && negb (is_Listening e)) es
              = true ->
            steps es w = Some w' -> I w').
  { induction es0 as [|e es0 IH]; intros w w' Hw Hq; simpl.
    - intros H; inversion H; subst; exact Hw.
    - simpl in Hq. apply andb_true_iff in Hq as [He Hq].
      apply andb_true_iff in He as [He1 He2].
      apply negb_true_iff in He1, He2.
      destruct (step e w) as [w0|] eqn:E; [|discriminate].
      intros H. eapply IH; [eapply Istep| |]; eassumption. }
  destruct (Irun es w1 w2 I1 Hes H2)
    as (_ & _ & l & last & Hsw & Hsp & Hhd & Htm & Hle).
  split; [exact Hsp|].
  destruct (sweeps w2) as [|x rest] eqn:Esw.
  - destruct l; discriminate.
  - simpl in Hhd; subst x.
    exists rest, last. repeat split; auto.
    rewrite Hsw. apply last_last.
Qed.

Lemma daemon_pace_witness :
  exists w2,
    steps [Listening; Elapse 60000; Fire 0;
           Api (CallCleanUp (fun _ => 70000)); Elapse 65000; Fire 0]
          (new_loop None 0) = Some w2 /\
    spaced 60000 (sweeps w2).
Proof.
  eexists. split; [reflexivity|].
  exact (proj1 (daemon_pace None 0 _
                  [Elapse 60000; Fire 0; Api (CallCleanUp (fun _ => 70000));
                   Elapse 65000; Fire 0] _ eq_refl eq_refl eq_refl)).
Defined.

(** ** Long polling *)

(** An earlier deadline makes a later one with the same message
    invisible. *)
Lemma expire_expire d d' m p :
  d <= d' -> expire d m (expire d' m p) = expire d m p.
Proof.
  intros Hd. destruct p as [s|since]; simpl.
  - destruct (settled_at s <? d') eqn:E'; simpl.
    + reflexivity.
    + apply Z.ltb_ge in E'.
      replace (d' <? d) with false by (symmetry; apply Z.ltb_ge; lia).
      replace (settled_at s <? d) with false
        by (symmetry; apply Z.ltb_ge; lia).
      reflexivity.
  - destruct (d' <=? since) eqn:E'; simpl.
    + apply Z.leb_le in E'.
      replace (d' <? d) with false by (symmetry; apply Z.ltb_ge; lia).
      replace (d <=? since) with true by (symmetry; apply Z.leb_le; lia).
      reflexivity.
    + reflexivity.
Qed.

Section Polling.

Variable this : Client.TelegramClient.
Variables T I : Z.
Variable replies : nat -> Reply.
Variable t0 : Z.

Hypothesis timeout_T : Client.timeout this = JNum T.
Hypothesis interval_I : Client.interval this = JNum I.
Hypothesis interval_pos : 0 < I.
Hypothesis latency_pos : forall k, 0 <= latency (replies k).
Hypothesis readable :
  forall k, exists b, has_updates (body (replies k)) = Ok b.

Lemma sent_grows k : t0 + Z.of_nat k * I <= sent I replies t0 k.
Proof.
  induction k as [|k IH]; simpl sent; [lia|].
  specialize (latency_pos k). lia.
Qed.

(** Under a deadline that is not later than its own, a call is the loop
    without the timers. *)
Lemma getUpdates_poll fuel k t d :
  d <= t + T ->
  expire d (timeout_message this) (getUpdates fuel this replies k t)
  = expire d (timeout_message this) (poll fuel I replies k t).
Proof.
  revert k t; induction fuel as [|fuel IH]; intros k t Hd; simpl;
    [reflexivity|].
  unfold timeoutP. rewrite timeout_T, interval_I. simpl millis_of.
  rewrite expire_expire by exact Hd.
  destruct (has_updates (body (replies k))) as [[|]|e]; try reflexivity.
  apply IH. specialize (latency_pos k). lia.
Qed.

(** What the loop without timers finds from the request number [k]. *)
Lemma poll_cases fuel k :
  (forall j, (j < k)%nat -> has_updates (body (replies j)) = Ok false) ->
  (exists k', (k' < k + fuel)%nat /\ first_update replies k' /\
     poll fuel I replies k (sent I replies t0 k)
     = Settles (Fulfilled (arrives I replies t0 k') (body (replies k')))) \/
  ((forall j, (j < k + fuel)%nat ->
      has_updates (body (replies j)) = Ok false) /\
   poll fuel I replies k (sent I replies t0 k)
   = Pending (sent I replies t0 (k + fuel))).
Proof.
  revert k; induction fuel as [|fuel IH]; intros k Hk; simpl.
  - right. rewrite Nat.add_0_r. auto.
  - destruct (readable k) as [[|] Hb]; rewrite Hb.
    + left. exists k. split; [lia|]. split; [split; assumption|].
      reflexivity.
    + assert (Hk' : forall j, (j < S k)%nat ->
                      has_updates (body (replies j)) = Ok false).
      { intros j Hj. destruct (Nat.eq_dec j k) as [->|]; [exact Hb|].
        apply Hk; lia. }
      replace (k + S fuel)%nat with (S k + fuel)%nat by lia.
      destruct (IH (S k) Hk') as [(k' & Hlt & Hf & Hp)|[Hall Hp]].
      * left. exists k'. split; [lia|]. split; [exact Hf|]. exact Hp.
      * right. split; [exact Hall|]. exact Hp.
Qed.

Lemma first_update_unique k k' :
  first_update replies k -> first_update replies k' -> k = k'.
Proof.
  intros [Hk Hbefore] [Hk' Hbefore'].
  destruct (Nat.lt_trichotomy k k') as [H|[H|H]]; [|exact H|].
  - rewrite (Hbefore' k H) in Hk; discriminate.
  - rewrite (Hbefore k' H) in Hk'; discriminate.
Qed.

(** With fuel for all the requests that can be made before the deadline,
    the first call is decided by the first answer that is not empty. *)
Lemma getUpdates_decided fuel :
  0 < T -> T <= Z.of_nat fuel * I ->
  (exists k, first_update replies k /\
     getUpdates fuel this replies 0 t0
     = expire (t0 + T) (timeout_message this)
         (Settles (Fulfilled (arrives I replies t0 k)
                             (body (replies k))))) \/
  ((forall k, ~ (first_update replies k /\
                 arrives I replies t0 k < t0 + T)) /\
   getUpdates fuel this replies 0 t0
   = Settles (Rejected (t0 + T) (TimeoutError (timeout_message this)))).
Proof.
  intros HT Hfuel.
  assert (Hself : getUpdates fuel this replies 0 t0
                  = expire (t0 + T) (timeout_message this)
                      (poll fuel I replies 0 t0)).
  { rewrite <- getUpdates_poll by lia.
    destruct fuel as [|fuel]; [simpl in Hfuel; lia|].
    simpl. unfold timeoutP. rewrite timeout_T.
    change (millis_of (JNum T)) with T.
    rewrite expire_expire by lia. reflexivity. }
  destruct (poll_cases fuel 0) as [(k & _ & Hf & Hp)|[Hall Hp]];
    [intros j Hj; lia | |]; simpl sent in Hp; rewrite Hself, Hp.
  - left. exists k. split; [exact Hf | reflexivity].
  - right. split.
    + intros k [[Hk _] Harr].
      assert (k < fuel)%nat.
      { pose proof (sent_grows k). specialize (latency_pos k).
        unfold arrives in Harr. nia. }
      rewrite (Hall k) in Hk by lia. discriminate.
    + simpl. pose proof (sent_grows fuel). simpl in H.
      replace (t0 + T <=? sent I replies t0 fuel) with true
        by (symmetry; apply Z.leb_le; lia).
      reflexivity.
Qed.

End Polling.

Lemma option_or_JObj fs name dflt :
  Client.option_or (JObj fs) name dflt
  = Ok match assoc name fs with
       | Some v => if truthy v then v else dflt
       | None => dflt
       end.
Proof.
  unfold Client.option_or. simpl.
  destruct (assoc name fs); reflexivity.
Qed.

(** C5, as stated, fails: a configured [timeout] of 0 is not the timeout
    of the client, which is 1000.  An update that arrives after 300 ms is
    returned, although nothing was obtained within the configured 0 ms;
    and when no update ever comes the failure is at 1000 ms and its
    message carries 1000. *)
Lemma getUpdates_ignores_timeout_zero :
  Client.constructor (JStr "http://localhost:9000") (JStr "token")
                     (JObj [("timeout", JNum 0)])
    = Client.Return sample_client /\
  getUpdates 11 sample_client replies_late 0 0
    = Settles (Fulfilled 300 one_update) /\
  getUpdates 11 sample_client replies_never 0 0
    = Settles (Rejected 1000
                 (TimeoutError "did not get new updates in 1000 ms")).
Proof.
  repeat split; vm_compute; reflexivity.
Qed.

(** C5, amended.  For a client whose [timeout] [T] and [interval] [I] are
    positive numbers (for a configured 0, or none, the constructor puts
    1000 and 100), when every request is answered and its body can be
    read: the call returns the first answer that is not empty, at the
    instant it arrives, if that is before [T] has passed, each request
    after an empty answer going out [I] later; and it fails with the
    [TimeoutError] whose message carries [T], at [T], exactly when no
    answer that is not empty arrives before [T] has passed.  One of the
    two always happens. *)
Theorem getUpdates_first_update_or_timeout :
  forall this T I replies t0 fuel,
    Client.timeout this = JNum T ->
    Client.interval this = JNum I ->
    0 < T -> 0 < I ->
    (forall k, 0 <= latency (replies k)) ->
    (forall k, exists b, has_updates (body (replies k)) = Ok b) ->
    T <= Z.of_nat fuel * I ->
    let result := getUpdates fuel this replies 0 t0 in
    let deadline := t0 + T in
    let failure :=
      Rejected deadline
        (TimeoutError ("did not get new updates in "
                       ++ js_to_string (JNum T) ++ " ms")) in
    (forall k,
       first_update replies k -> arrives I replies t0 k < deadline ->
       result = Settles (Fulfilled (arrives I replies t0 k)
                                   (body (replies k)))) /\
    (result = Settles failure <->
     forall k, first_update replies k -> deadline <= arrives I replies t0 k) /\
    (exists s, result = Settles s) /\
    (forall url botToken fs,
       url <> JUndefined -> botToken <> JUndefined ->
       exists client,
         Client.constructor url botToken (JObj fs) = Client.Return client /\
         (assoc "timeout" fs = None \/ assoc "timeout" fs = Some (JNum 0) ->
          Client.timeout client = JNum 1000) /\
         (assoc "interval" fs = None \/ assoc "interval" fs = Some (JNum 0) ->
          Client.interval client = JNum 100)).
Proof.
  intros this T I replies t0 fuel HT HI Tpos Ipos Hlat Hread Hfuel
         result deadline failure.
  assert (Hmsg : timeout_message this
                 = ("did not get new updates in "
                    ++ js_to_string (JNum T) ++ " ms")%string).
  { unfold timeout_message. rewrite HT. reflexivity. }
  pose proof (getUpdates_decided this T I replies t0 HT HI Ipos Hlat Hread
                fuel Tpos Hfuel) as Hdec.
  fold result in Hdec. rewrite Hmsg in Hdec. fold deadline in Hdec.
  fold failure in Hdec.
  assert (Hexp : forall k,
            expire deadline
              ("did not get new updates in " ++ js_to_string (JNum T)
               ++ " ms")%string
              (Settles (Fulfilled (arrives I replies t0 k)
                                  (body (replies k))))
            = if arrives I replies t0 k <? deadline
              then Settles (Fulfilled (arrives I replies t0 k)
                                      (body (replies k)))
              else Settles failure) by reflexivity.
  split; [|split; [|split]].
  - intros k Hk Harr.
    destruct Hdec as [(k' & Hk' & ->)|[Hnone _]].
    + rewrite (first_update_unique _ _ _ Hk Hk'). rewrite Hexp.
      rewrite (first_update_unique _ _ _ Hk Hk') in Harr.
      apply Z.ltb_lt in Harr. rewrite Harr. reflexivity.
    + exfalso. apply (Hnone k). split; assumption.
  - split.
    + intros Hfail k Hk.
      destruct (Z_lt_le_dec (arrives I replies t0 k) deadline) as [Hlt|Hle];
        [|exact Hle].
      exfalso.
      destruct Hdec as [(k' & Hk' & E)|[Hnone _]].
      * rewrite (first_update_unique _ _ _ Hk' Hk) in E.
        rewrite Hexp in E. apply Z.ltb_lt in Hlt. rewrite Hlt in E.
        rewrite E in Hfail. discriminate.
      * apply (Hnone k). split; assumption.
    + intros Hall.
      destruct Hdec as [(k' & Hk' & ->)|[_ E]]; [|exact E].
      rewrite Hexp. specialize (Hall k' Hk').
      apply Z.ltb_ge in Hall. rewrite Hall. reflexivity.
  - destruct Hdec as [(k' & Hk' & ->)|[_ E]]; [|eauto].
    rewrite Hexp. destruct (_ <? _); eauto.
  - intros url botToken fs Hurl Htok.
    unfold Client.constructor. simpl Client.default_options.
    rewrite !option_or_JObj. cbn [bind].
    eexists. split.
    + destruct url; try congruence; destruct botToken; try congruence;
        reflexivity.
    + simpl. split; intros [->| ->]; reflexivity.
Qed.

Lemma getUpdates_first_update_or_timeout_witness :
  getUpdates 10 sample_client replies_third 0 0
    = Settles (Fulfilled 230 one_update).
Proof.
  assert (Hlat : forall k, 0 <= latency (replies_third k))
    by (intros k; simpl; lia).
  assert (Hread : forall k,
            exists b, has_updates (body (replies_third k)) = Ok b).
  { intros k. unfold replies_third; simpl.
    destruct (k <? 2)%nat; eexists; reflexivity. }
  assert (Hfirst : first_update replies_third 2).
  { split; [reflexivity|].
    intros j Hj. destruct j as [|[|j]]; [reflexivity | reflexivity | lia]. }
  exact (proj1 (getUpdates_first_update_or_timeout sample_client 1000 100
                  replies_third 0 10 eq_refl eq_refl eq_refl eq_refl
                  Hlat Hread ltac:(simpl; lia))
           2%nat Hfirst eq_refl).
Defined.
